(** * cpp_parse_config.hpp: the [key = value] configuration scanner

    A shallow embedding of [parse_config] (src/cpp_parse_config.hpp) and the
    properties of its character-by-character state machine.

    - A [char] is kept as its 8-bit pattern ([ascii]); its integer value, which
      [c == EOF] and the <cctype> predicates look at, is [char_to_int].
      Whether plain [char] is signed is implementation-defined, so it is a
      parameter of the development ([char_signed], written [sg] in the
      statements: [true] where [char] is signed, as on x86).
    - [param_name] and [param_value] are the two fixed-size stack buffers,
      lists updated in place by index.
    - [line] is the [int] line counter: [line++] wraps around at 32 bits.
    - [ret] is the caller's [std::unordered_map<std::string,std::string>],
      a [gmap string string]; [std::unordered_map::insert] keeps an
      existing entry.
    - The [while (fconf.get(c))] loop is a fold of its body over the
      characters of the stream; the body says how control leaves it
      ([continue]/end of [switch], [break] out of the loop, [return]). *)

From Stdlib Require Import ZArith Ascii String List Bool Lia.
From stdpp Require Import gmap strings list fin_maps.

Local Open Scope Z_scope.

(** ** Constants of the header *)

Definition CONFERR_NORET : Z := -1.
Definition CONFERR_ERRFILE : Z := -2.
Definition CONFERR_WRONGSYNTAX : Z := -3.
Definition CONFERR_WRONGPARAM : Z := -4.
Definition CONFERR_WRONGVALUE : Z := -5.

Definition CONF_PARAM_NAME_MAX_LEN : nat := 30.
Definition CONF_PARAM_VALUE_MAX_LEN : nat := 255.

(** <cstdio>'s [EOF]. *)
Definition EOF : Z := -1.

(** ** Characters *)

Definition NUL : ascii := "000"%char.
Definition LF : ascii := "010"%char.
Definition HASH : ascii := "#"%char.
Definition EQUALS : ascii := "="%char.
Definition SQUOTE : ascii := "'"%char.
Definition DQUOTE : ascii := "034"%char.

(** The <cctype> classification in the "C" locale (the program never calls
    [setlocale]); the argument is the character converted to [int]. *)
Definition isalpha (i : Z) : bool :=
  ((65 <=? i) && (i <=? 90)) || ((97 <=? i) && (i <=? 122)).

Definition isdigit (i : Z) : bool := (48 <=? i) && (i <=? 57).

Definition isspace (i : Z) : bool := (i =? 32) || ((9 <=? i) && (i <=? 13)).

(** ** The map *)

(** [std::unordered_map::insert]: the pair is stored only when the key has no
    entry yet. *)
Definition umap_insert (k v : string) (m : gmap string string) : gmap string string :=
  match m !! k with
  | Some _ => m
  | None => <[k := v]> m
  end.

(** [std::string(const char * )]: the characters before the first NUL. *)
Fixpoint c_str (buf : list ascii) : string :=
  match buf with
  | [] => EmptyString
  | c :: rest => if Ascii.eqb c NUL then EmptyString else String c (c_str rest)
  end.

(** ** Scanner state *)

Inductive parse_mode : Set :=
  | parse_skip_space
  | parse_skip_comment_line
  | parse_param_name
  | parse_skip_space_before_equal
  | parse_skip_space_after_equal
  | parse_value
  | parse_line_end
  | parse_value_in_single_quote
  | parse_value_in_double_quote.

(** The local variables of [parse_config] that live across iterations, and
    the map [ret] points to. *)
Record locals : Type := mkLocals {
  param_name : list ascii;
  param_value : list ascii;
  name_fill : nat;
  value_fill : nat;
  line : Z;
  mode : parse_mode;
  ret : gmap string string
}.

Definition set_mode (m : parse_mode) (s : locals) : locals :=
  mkLocals (param_name s) (param_value s) (name_fill s) (value_fill s) (line s) m (ret s).

Definition set_name_fill (n : nat) (s : locals) : locals :=
  mkLocals (param_name s) (param_value s) n (value_fill s) (line s) (mode s) (ret s).

Definition set_value_fill (n : nat) (s : locals) : locals :=
  mkLocals (param_name s) (param_value s) (name_fill s) n (line s) (mode s) (ret s).

(** The value an [int] holds for [z]: 32 bits, two's complement. *)
Definition int_wrap (z : Z) : Z := (z + 2 ^ 31) mod 2 ^ 32 - 2 ^ 31.

Arguments int_wrap : simpl never.

(** [line++] on [int line]: past [INT_MAX] the counter wraps around, as it
    does in the compiled code. *)
Definition incr_line (s : locals) : locals :=
  mkLocals (param_name s) (param_value s) (name_fill s) (value_fill s)
           (int_wrap (line s + 1)) (mode s) (ret s).

(** [param_name[i] = c] *)
Definition store_name (i : nat) (c : ascii) (s : locals) : locals :=
  mkLocals (<[i := c]> (param_name s)) (param_value s) (name_fill s) (value_fill s)
           (line s) (mode s) (ret s).

(** [param_value[i] = c] *)
Definition store_value (i : nat) (c : ascii) (s : locals) : locals :=
  mkLocals (param_name s) (<[i := c]> (param_value s)) (name_fill s) (value_fill s)
           (line s) (mode s) (ret s).

(** [ret->insert(std::make_pair(param_name, param_value))] *)
Definition insert_pair (s : locals) : locals :=
  mkLocals (param_name s) (param_value s) (name_fill s) (value_fill s) (line s) (mode s)
           (umap_insert (c_str (param_name s)) (c_str (param_value s)) (ret s)).

(** [ret->clear()] *)
Definition clear_ret (s : locals) : locals :=
  mkLocals (param_name s) (param_value s) (name_fill s) (value_fill s) (line s) (mode s) ∅.

(** How one iteration of the loop ends. *)
Inductive control : Type :=
  | Next (s : locals)                 (* [continue], or the end of the [switch] *)
  | Break (s : locals)                (* [break] out of the [while] *)
  | Return (code : Z) (s : locals).   (* [return code] *)

Definition in_quote (m : parse_mode) : bool :=
  match m with
  | parse_value_in_single_quote | parse_value_in_double_quote => true
  | _ => false
  end.

Section Scanner.

(** Whether plain [char] is a signed type on the platform. *)
Variable char_signed : bool.

(** The value of a [char] as an [int]. *)
Definition char_to_int (c : ascii) : Z :=
  let n := Z.of_N (N_of_ascii c) in
  if char_signed && (128 <=? n) then n - 256 else n.

(** The quoted-value cases of the [switch]; [q] is the closing delimiter. *)
Definition quoted_value_case (q : ascii) (c : ascii) (s : locals) : control :=
  if negb (Ascii.eqb c q) then
    let s := if Ascii.eqb c LF then incr_line s else s in
    let s := store_value (value_fill s) c s in
    if (CONF_PARAM_VALUE_MAX_LEN - 1 <? value_fill s + 1)%nat then
      Return CONFERR_WRONGVALUE (clear_ret s)
    else Next (set_value_fill (value_fill s + 1) s)
  else
    let s := store_value (value_fill s) NUL s in
    let s := set_value_fill (value_fill s + 1) s in
    let s := insert_pair s in
    Next (set_mode parse_skip_space s).

(** The body of [while (fconf.get(c))]. *)
Definition loop_body (s : locals) (c : ascii) : control :=
  if char_to_int c =? EOF then
    Break (if in_quote (mode s)
           then insert_pair (store_value (value_fill s) NUL s)
           else s)
  else
  match mode s with
  | parse_skip_space =>
      if Ascii.eqb c HASH then Next (set_mode parse_skip_comment_line s)
      else if Ascii.eqb c LF then Next (incr_line s)
      else if isalpha (char_to_int c) then
        Next (set_mode parse_param_name (set_name_fill 1 (store_name 0 c s)))
      else if negb (isspace (char_to_int c)) then
        Return CONFERR_WRONGPARAM (clear_ret s)
      else Next s
  | parse_skip_comment_line =>
      if Ascii.eqb c LF then Next (set_mode parse_skip_space (incr_line s))
      else Next s
  | parse_param_name =>
      if isspace (char_to_int c) then
        let s := if Ascii.eqb c LF then incr_line s else s in
        let s := store_name (name_fill s) NUL s in
        let s := set_name_fill (name_fill s + 1) s in
        Next (set_mode parse_skip_space_before_equal s)
      else if Ascii.eqb c EQUALS then
        let s := store_name (name_fill s) NUL s in
        let s := set_name_fill (name_fill s + 1) s in
        Next (set_mode parse_skip_space_after_equal s)
      else if isalpha (char_to_int c) || isdigit (char_to_int c) || Ascii.eqb c "_"%char then
        let s := store_name (name_fill s) c s in
        if (CONF_PARAM_NAME_MAX_LEN - 1 <? name_fill s + 1)%nat then
          Return CONFERR_WRONGPARAM (clear_ret s)
        else Next (set_name_fill (name_fill s + 1) s)
      else Return CONFERR_WRONGPARAM (clear_ret s)
  | parse_skip_space_before_equal =>
      if isspace (char_to_int c) then
        Next (if Ascii.eqb c LF then incr_line s else s)
      else if Ascii.eqb c EQUALS then Next (set_mode parse_skip_space_after_equal s)
      else Next s
  | parse_skip_space_after_equal =>
      if isspace (char_to_int c) then
        Next (if Ascii.eqb c LF then incr_line s else s)
      else if Ascii.eqb c SQUOTE then
        Next (set_value_fill 0 (set_mode parse_value_in_single_quote s))
      else if Ascii.eqb c DQUOTE then
        Next (set_value_fill 0 (set_mode parse_value_in_double_quote s))
      else if Ascii.eqb c HASH then
        let s := set_value_fill 0 s in
        let s := store_value (value_fill s) NUL s in
        let s := insert_pair s in
        Next (set_mode parse_skip_comment_line s)
      else
        Next (set_mode parse_value (set_value_fill 1 (store_value 0 c s)))
  | parse_value =>
      if isspace (char_to_int c) || Ascii.eqb c HASH then
        let s := set_mode parse_line_end s in
        let s := if Ascii.eqb c HASH then set_mode parse_skip_comment_line s else s in
        let s := store_value (value_fill s) NUL s in
        let s := set_value_fill (value_fill s + 1) s in
        let s := insert_pair s in
        Next (if Ascii.eqb c LF then set_mode parse_skip_space (incr_line s) else s)
      else
        let s := store_value (value_fill s) c s in
        if (CONF_PARAM_VALUE_MAX_LEN - 1 <? value_fill s + 1)%nat then
          Return CONFERR_WRONGVALUE (clear_ret s)
        else Next (set_value_fill (value_fill s + 1) s)
  | parse_line_end =>
      if isspace (char_to_int c) then
        Next (if Ascii.eqb c LF then set_mode parse_skip_space (incr_line s) else s)
      else if Ascii.eqb c HASH then Next (set_mode parse_skip_comment_line s)
      else Return CONFERR_WRONGSYNTAX (clear_ret s)
  | parse_value_in_single_quote => quoted_value_case SQUOTE c s
  | parse_value_in_double_quote => quoted_value_case DQUOTE c s
  end.

(** [while (fconf.get(c)) { ... }]: when the stream is exhausted [get] fails
    and the loop is left with nothing else done. *)
Fixpoint while_get (s : locals) (fconf : list ascii) : control :=
  match fconf with
  | [] => Next s
  | c :: rest =>
      match loop_body s c with
      | Next s' => while_get s' rest
      | stop => stop
      end
  end.

(** The locals at the first iteration. The two buffers are not initialised by
    the source; they are taken NUL-filled here (what they hold makes no
    difference to the result, see [while_get_uninitialised]). *)
Definition initial_locals (m : gmap string string) : locals :=
  mkLocals (replicate CONF_PARAM_NAME_MAX_LEN NUL) (replicate CONF_PARAM_VALUE_MAX_LEN NUL)
           0 0 1 parse_skip_space m.

(** [parse_config(file_name, ret)]. [fconf] is what opening [file_name] gives
    ([None]: the stream cannot be opened), [ret] what the pointer refers to
    ([None]: a null pointer). The result is the returned code and the map
    as the call leaves it. *)
Definition parse_config (fconf : option (list ascii)) (ret0 : option (gmap string string))
  : Z * option (gmap string string) :=
  match ret0 with
  | None => (CONFERR_NORET, None)
  | Some m =>
      match fconf with
      | None => (CONFERR_ERRFILE, Some m)
      | Some input =>
          match while_get (initial_locals m) input with
          | Next s | Break s => (0, Some (ret s))
          | Return code s => (code, Some (ret s))
          end
      end
  end.

End Scanner.

(** The characters of a string literal, for writing inputs down. *)
Definition chars (s : string) : list ascii := list_ascii_of_string s.

(** The byte 0xFF. *)
Definition xFF : ascii := "255"%char.

(** The test of the [parse_param_name] case for a character of a name. *)
Definition name_char (sg : bool) (c : ascii) : bool :=
  isalpha (char_to_int sg c) || isdigit (char_to_int sg c) || Ascii.eqb c "_"%char.

(** A name: a letter, then letters, digits and underscores. *)
Definition valid_name (sg : bool) (k : list ascii) : bool :=
  match k with
  | [] => false
  | c :: rest => isalpha (char_to_int sg c) && forallb (name_char sg) rest
  end.

(** [c == EOF] *)
Definition is_EOF (sg : bool) (c : ascii) : bool := char_to_int sg c =? EOF.

(** A character an unquoted value goes on with: the [parse_value] case
    appends it. *)
Definition value_char (sg : bool) (c : ascii) : bool :=
  negb (isspace (char_to_int sg c)) && negb (Ascii.eqb c HASH) && negb (is_EOF sg c).

(** A character a value quoted by [q] goes on with. *)
Definition quoted_char (sg : bool) (q c : ascii) : bool :=
  negb (Ascii.eqb c q) && negb (is_EOF sg c).

(** A character of a value that reads the same unquoted and quoted: no
    whitespace, no [#], no quote, and neither NUL (the end of a C string)
    nor a byte that compares equal to [EOF]. *)
Definition plain_char (sg : bool) (c : ascii) : bool :=
  negb (isspace (char_to_int sg c)) && negb (Ascii.eqb c HASH)
  && negb (Ascii.eqb c SQUOTE) && negb (Ascii.eqb c DQUOTE)
  && negb (Ascii.eqb c NUL) && negb (is_EOF sg c).

(** Whitespace, as the scanner tests it. *)
Definition space_char (sg : bool) (c : ascii) : bool :=
  isspace (char_to_int sg c) && negb (is_EOF sg c).

(** The number of newlines in a piece of input. *)
Fixpoint count_LF (l : list ascii) : Z :=
  match l with
  | [] => 0
  | c :: rest => (if Ascii.eqb c LF then 1 else 0) + count_LF rest
  end.

(** The line counter after the newlines of a piece of input, from [ln]. *)
Fixpoint lines_after (ln : Z) (l : list ascii) : Z :=
  match l with
  | [] => ln
  | c :: rest => lines_after (if Ascii.eqb c LF then int_wrap (ln + 1) else ln) rest
  end.

(** What the call returns when the loop is left in a given way. *)
Definition outcome (r : control) : Z * gmap string string :=
  match r with
  | Next s | Break s => (0, ret s)
  | Return code s => (code, ret s)
  end.

(** The two quoted-value modes and their delimiters ([dq]: double quote). *)
Definition quote_mode (dq : bool) : parse_mode :=
  if dq then parse_value_in_double_quote else parse_value_in_single_quote.

Definition quote_char (dq : bool) : ascii := if dq then DQUOTE else SQUOTE.

(** A character the [parse_skip_space_before_equal] case passes over. *)
Definition junk_char (sg : bool) (c : ascii) : bool :=
  negb (Ascii.eqb c EQUALS) && negb (is_EOF sg c).

(** The line counter set to [l]; it is only ever printed. *)
Definition set_line (l : Z) (s : locals) : locals :=
  mkLocals (param_name s) (param_value s) (name_fill s) (value_fill s) l (mode s) (ret s).

Definition control_map (f : locals -> locals) (r : control) : control :=
  match r with
  | Next s => Next (f s)
  | Break s => Break (f s)
  | Return code s => Return code (f s)
  end.

(** The mode the scanner is in once it has read [pre], when the loop is
    still running then. *)
Definition mode_after (sg : bool) (m0 : gmap string string) (pre : list ascii)
  : option parse_mode :=
  match while_get sg (initial_locals m0) pre with
  | Next s => Some (mode s)
  | _ => None
  end.

(** The result of a call that succeeds with the single pair [(k, v)]. *)
Definition success_with (k v : list ascii) : Z * option (gmap string string) :=
  (0, Some {[string_of_list_ascii k := string_of_list_ascii v]}).

(** Every index the loop body stores at lies inside its buffer. *)
Definition in_bounds (s : locals) : Prop :=
  length (param_name s) = CONF_PARAM_NAME_MAX_LEN
  /\ length (param_value s) = CONF_PARAM_VALUE_MAX_LEN
  /\ match mode s with
     | parse_param_name => (name_fill s < CONF_PARAM_NAME_MAX_LEN)%nat
     | parse_value | parse_value_in_single_quote | parse_value_in_double_quote =>
         (value_fill s < CONF_PARAM_VALUE_MAX_LEN)%nat
     | _ => True
     end.

(** What two runs that started on different buffer contents agree on:
    everything but the cells that are not read any more before they are
    written. *)
Definition same_but_garbage (s1 s2 : locals) : Prop :=
  in_bounds s1 /\ in_bounds s2
  /\ name_fill s1 = name_fill s2 /\ value_fill s1 = value_fill s2
  /\ line s1 = line s2 /\ mode s1 = mode s2 /\ ret s1 = ret s2
  /\ match mode s1 with
     | parse_param_name =>
         take (name_fill s1) (param_name s1) = take (name_fill s1) (param_name s2)
     | parse_skip_space_before_equal | parse_skip_space_after_equal =>
         c_str (param_name s1) = c_str (param_name s2)
     | parse_value | parse_value_in_single_quote | parse_value_in_double_quote =>
         c_str (param_name s1) = c_str (param_name s2)
         /\ take (value_fill s1) (param_value s1) = take (value_fill s1) (param_value s2)
     | _ => True
     end.

Definition same_control (r1 r2 : control) : Prop :=
  match r1, r2 with
  | Next s1, Next s2 => same_but_garbage s1 s2
  | Break s1, Break s2 => ret s1 = ret s2
  | Return c1 s1, Return c2 s2 => c1 = c2 /\ ret s1 = ret s2
  | _, _ => False
  end.

(** The example file written by the usage example at the end of the
    header. *)
Definition example_conf : list ascii :=
  chars "# this is config file example" ++ [LF]
  ++ chars "host=" ++ [DQUOTE] ++ chars "mysql.example.com" ++ [DQUOTE]
  ++ chars " # this is SQL host" ++ [LF]
  ++ chars "user      =       'dba_admin'" ++ [LF]
  ++ chars "password = helloworld # test comment" ++ [LF]
  ++ chars "database=testdb123" ++ [LF].

(** The characters the loop reads before it stops: all of the input, or
    the input up to and including the character it stops at. *)
Fixpoint consumed (sg : bool) (s : locals) (fconf : list ascii) : list ascii :=
  match fconf with
  | [] => []
  | c :: rest =>
      match loop_body sg s c with
      | Next s' => c :: consumed sg s' rest
      | _ => [c]
      end
  end.

(** The locals as the loop leaves them. *)
Definition final_locals (r : control) : locals :=
  match r with
  | Next s | Break s | Return _ s => s
  end.

(** Whitespace that does not end the line. *)
Definition blank_char (sg : bool) (c : ascii) : bool :=
  space_char sg c && negb (Ascii.eqb c LF).

(** A character of a comment: anything but the newline that ends it and a
    byte that compares equal to [EOF]. *)
Definition comment_char (sg : bool) (c : ascii) : bool :=
  negb (Ascii.eqb c LF) && negb (is_EOF sg c).

(** What the rest of a scan depends on: the mode, the map, and of the
    buffers and fill counters only what the mode will still read. The line
    counter and the leftovers of earlier parameters are not part of it. *)
Definition same_pending (s1 s2 : locals) : Prop :=
  in_bounds s1 /\ in_bounds s2 /\ mode s1 = mode s2 /\ ret s1 = ret s2
  /\ match mode s1 with
     | parse_param_name =>
         name_fill s1 = name_fill s2
         /\ take (name_fill s1) (param_name s1) = take (name_fill s1) (param_name s2)
     | parse_skip_space_before_equal | parse_skip_space_after_equal =>
         c_str (param_name s1) = c_str (param_name s2)
     | parse_value | parse_value_in_single_quote | parse_value_in_double_quote =>
         c_str (param_name s1) = c_str (param_name s2)
         /\ value_fill s1 = value_fill s2
         /\ take (value_fill s1) (param_value s1) = take (value_fill s1) (param_value s2)
     | _ => True
     end.

Definition same_pending_control (r1 r2 : control) : Prop :=
  match r1, r2 with
  | Next s1, Next s2 => same_pending s1 s2
  | Break s1, Break s2 => ret s1 = ret s2
  | Return c1 s1, Return c2 s2 => c1 = c2 /\ ret s1 = ret s2
  | _, _ => False
  end.

(** A key the scanner can have produced: a name of [valid_name] that fits
    the name buffer with its terminating NUL. *)
Definition name_ok (sg : bool) (k : string) : bool :=
  valid_name sg (list_ascii_of_string k)
  && (String.length k <=? CONF_PARAM_NAME_MAX_LEN - 1)%nat.

(** A value the scanner can have produced: it fits the value buffer with
    its terminating NUL. *)
Definition value_ok (v : string) : bool :=
  (String.length v <=? CONF_PARAM_VALUE_MAX_LEN - 1)%nat.

(** Every entry of [m] is one the caller put in [m0] or a well-formed
    pair. *)
Definition parsed_entries_ok (sg : bool) (m0 m : gmap string string) : Prop :=
  forall k v, m !! k = Some v ->
    m0 !! k = Some v \/ (name_ok sg k = true /\ value_ok v = true).

(** The invariant of the loop behind [parsed_entries_ok]. *)
Definition well_formed (sg : bool) (m0 : gmap string string) (s : locals) : Prop :=
  in_bounds s /\ parsed_entries_ok sg m0 (ret s)
  /\ match mode s with
     | parse_param_name => valid_name sg (take (name_fill s) (param_name s)) = true
     | parse_skip_space_before_equal | parse_skip_space_after_equal
     | parse_value | parse_value_in_single_quote | parse_value_in_double_quote =>
         name_ok sg (c_str (param_name s)) = true
     | _ => True
     end.

Definition well_formed_control (sg : bool) (m0 : gmap string string) (r : control) : Prop :=
  match r with
  | Next s => well_formed sg m0 s
  | Break s => parsed_entries_ok sg m0 (ret s)
  | Return _ s => ret s = ∅
  end.

(** ** Characters: case analysis over the 256 bit patterns *)

Ltac all_chars c :=
  let b0 := fresh in let b1 := fresh in let b2 := fresh in let b3 := fresh in
  let b4 := fresh in let b5 := fresh in let b6 := fresh in let b7 := fresh in
  destruct c as [b0 b1 b2 b3 b4 b5 b6 b7];
  destruct b0, b1, b2, b3, b4, b5, b6, b7.

Lemma is_EOF_spec sg c : is_EOF sg c = true <-> sg = true /\ c = xFF.
Proof.
  split.
  - destruct sg; all_chars c; vm_compute; intros H; try discriminate H; split; reflexivity.
  - intros [-> ->]. reflexivity.
Qed.

Lemma name_char_facts sg c :
  name_char sg c = true ->
  isspace (char_to_int sg c) = false /\ Ascii.eqb c EQUALS = false /\ is_EOF sg c = false.
Proof.
  destruct sg; all_chars c; vm_compute; intros H; try discriminate H; repeat split.
Qed.

(** ** The loop over a concatenation *)

Lemma while_get_app sg s a b :
  while_get sg s (a ++ b) =
  match while_get sg s a with
  | Next s' => while_get sg s' b
  | stop => stop
  end.
Proof.
  revert s. induction a as [|c a IH]; intros s; simpl.
  - reflexivity.
  - destruct (loop_body sg s c); auto.
Qed.

(** ** Strings out of the buffers *)

Lemma list_inserts_0_cons (c : ascii) v b buf :
  list_inserts 0 (c :: v) (b :: buf) = c :: list_inserts 0 v buf.
Proof. simpl. rewrite list_inserts_cons. reflexivity. Qed.

Lemma list_inserts_shift (c : ascii) v i buf :
  list_inserts (S i) v (<[i := c]> buf) = list_inserts i (c :: v) buf.
Proof. simpl. symmetry. apply list_insert_inserts_lt. lia. Qed.

(** Writing [v] at the start of a buffer and a NUL after it makes the buffer
    read as the C string [v]. *)
Lemma c_str_written v : forall buf : list ascii,
  (length v < length buf)%nat ->
  c_str (<[length v := NUL]> (list_inserts 0 v buf)) = c_str v.
Proof.
  induction v as [|c v IH]; intros [|b buf] Hlen; simpl in Hlen; try lia.
  - reflexivity.
  - rewrite list_inserts_0_cons. cbn [length]. cbn [c_str].
    change (<[S (length v) := NUL]> (c :: list_inserts 0 v buf))
      with (c :: <[length v := NUL]> (list_inserts 0 v buf)).
    cbn [c_str]. rewrite IH by lia. reflexivity.
Qed.

Lemma c_str_no_NUL v :
  forallb (fun c => negb (Ascii.eqb c NUL)) v = true ->
  c_str v = string_of_list_ascii v.
Proof.
  induction v as [|c v IH]; simpl; intros H.
  - reflexivity.
  - apply andb_true_iff in H as [Hc Hv]. apply negb_true_iff in Hc.
    rewrite Hc, IH by assumption. reflexivity.
Qed.

(** ** Single iterations *)

Lemma isalpha_facts sg c :
  isalpha (char_to_int sg c) = true ->
  is_EOF sg c = false /\ Ascii.eqb c HASH = false /\ Ascii.eqb c LF = false
  /\ name_char sg c = true /\ Ascii.eqb c NUL = false.
Proof.
  destruct sg; all_chars c; vm_compute; intros H; try discriminate H; repeat split.
Qed.

Lemma name_char_not_NUL sg c : name_char sg c = true -> Ascii.eqb c NUL = false.
Proof.
  destruct sg; all_chars c; vm_compute; intros H; try discriminate H; reflexivity.
Qed.

Lemma step_name_start sg c pn pv nf vf ln m :
  isalpha (char_to_int sg c) = true ->
  loop_body sg (mkLocals pn pv nf vf ln parse_skip_space m) c
  = Next (mkLocals (<[0%nat := c]> pn) pv 1 vf ln parse_param_name m).
Proof.
  intros H. destruct (isalpha_facts sg c H) as (He & Hh & Hl & _).
  unfold loop_body. fold (is_EOF sg c). rewrite He. cbn. rewrite Hh, Hl, H. reflexivity.
Qed.

Lemma step_name_char sg c pn pv nf vf ln m :
  name_char sg c = true -> (nf + 1 <= CONF_PARAM_NAME_MAX_LEN - 1)%nat ->
  loop_body sg (mkLocals pn pv nf vf ln parse_param_name m) c
  = Next (mkLocals (<[nf := c]> pn) pv (nf + 1) vf ln parse_param_name m).
Proof.
  intros H Hn. destruct (name_char_facts sg c H) as (Hs & Hq & He).
  unfold loop_body. fold (is_EOF sg c). rewrite He. cbn [mode].
  rewrite Hs, Hq. fold (name_char sg c). rewrite H. cbn -[CONF_PARAM_NAME_MAX_LEN Nat.ltb].
  apply Nat.ltb_ge in Hn. rewrite Hn. reflexivity.
Qed.

Lemma step_name_overflow sg c pn pv nf vf ln m :
  name_char sg c = true -> (CONF_PARAM_NAME_MAX_LEN - 1 < nf + 1)%nat ->
  loop_body sg (mkLocals pn pv nf vf ln parse_param_name m) c
  = Return CONFERR_WRONGPARAM (mkLocals (<[nf := c]> pn) pv nf vf ln parse_param_name ∅).
Proof.
  intros H Hn. destruct (name_char_facts sg c H) as (Hs & Hq & He).
  unfold loop_body. fold (is_EOF sg c). rewrite He. cbn [mode].
  rewrite Hs, Hq. fold (name_char sg c). rewrite H. cbn -[CONF_PARAM_NAME_MAX_LEN Nat.ltb].
  apply Nat.ltb_lt in Hn. rewrite Hn. reflexivity.
Qed.

Lemma step_name_equals sg pn pv nf vf ln m :
  loop_body sg (mkLocals pn pv nf vf ln parse_param_name m) EQUALS
  = Next (mkLocals (<[nf := NUL]> pn) pv (nf + 1) vf ln parse_skip_space_after_equal m).
Proof. destruct sg; reflexivity. Qed.

(** ** Scanning a name *)

Lemma scan_name_chars sg rest : forall pn pv nf vf ln m,
  forallb (name_char sg) rest = true ->
  (nf + length rest <= CONF_PARAM_NAME_MAX_LEN - 1)%nat ->
  while_get sg (mkLocals pn pv nf vf ln parse_param_name m) rest
  = Next (mkLocals (list_inserts nf rest pn) pv (nf + length rest) vf ln parse_param_name m).
Proof.
  induction rest as [|c rest IH]; intros pn pv nf vf ln m Hall Hlen.
  - cbn [while_get list_inserts length]. rewrite Nat.add_0_r. reflexivity.
  - cbn [forallb] in Hall. apply andb_true_iff in Hall as [Hc Hall].
    cbn [length] in Hlen. cbn [while_get].
    rewrite step_name_char by (assumption || lia).
    rewrite IH by (assumption || lia).
    rewrite Nat.add_1_r, list_inserts_shift. cbn [length].
    rewrite Nat.add_succ_r. reflexivity.
Qed.

Lemma scan_name sg k pn pv nf vf ln m :
  valid_name sg k = true ->
  (length k <= CONF_PARAM_NAME_MAX_LEN - 1)%nat ->
  while_get sg (mkLocals pn pv nf vf ln parse_skip_space m) k
  = Next (mkLocals (list_inserts 0 k pn) pv (length k) vf ln parse_param_name m).
Proof.
  destruct k as [|c rest]; [discriminate|]. cbn [valid_name length].
  intros H Hlen. apply andb_true_iff in H as [Hc Hrest].
  cbn [while_get]. rewrite step_name_start by assumption.
  rewrite scan_name_chars by (assumption || lia).
  rewrite list_inserts_shift. reflexivity.
Qed.

(** ** Scanning a value *)

Lemma value_char_facts sg c :
  value_char sg c = true ->
  is_EOF sg c = false /\ isspace (char_to_int sg c) = false /\ Ascii.eqb c HASH = false.
Proof.
  unfold value_char. rewrite !andb_true_iff, !negb_true_iff. tauto.
Qed.

Lemma step_value_first sg c pn pv nf vf ln m :
  value_char sg c = true -> Ascii.eqb c SQUOTE = false -> Ascii.eqb c DQUOTE = false ->
  loop_body sg (mkLocals pn pv nf vf ln parse_skip_space_after_equal m) c
  = Next (mkLocals pn (<[0%nat := c]> pv) nf 1 ln parse_value m).
Proof.
  intros H Hs Hd. destruct (value_char_facts sg c H) as (He & Hsp & Hh).
  unfold loop_body. fold (is_EOF sg c). rewrite He. cbn [mode].
  rewrite Hsp, Hs, Hd, Hh. reflexivity.
Qed.

Lemma step_value_char sg c pn pv nf vf ln m :
  value_char sg c = true -> (vf + 1 <= CONF_PARAM_VALUE_MAX_LEN - 1)%nat ->
  loop_body sg (mkLocals pn pv nf vf ln parse_value m) c
  = Next (mkLocals pn (<[vf := c]> pv) nf (vf + 1) ln parse_value m).
Proof.
  intros H Hn. destruct (value_char_facts sg c H) as (He & Hsp & Hh).
  unfold loop_body. fold (is_EOF sg c). rewrite He. cbn [mode].
  rewrite Hsp, Hh. cbn -[CONF_PARAM_VALUE_MAX_LEN Nat.ltb].
  apply Nat.ltb_ge in Hn. rewrite Hn. reflexivity.
Qed.

Lemma step_value_overflow sg c pn pv nf vf ln m :
  value_char sg c = true -> (CONF_PARAM_VALUE_MAX_LEN - 1 < vf + 1)%nat ->
  loop_body sg (mkLocals pn pv nf vf ln parse_value m) c
  = Return CONFERR_WRONGVALUE (mkLocals pn (<[vf := c]> pv) nf vf ln parse_value ∅).
Proof.
  intros H Hn. destruct (value_char_facts sg c H) as (He & Hsp & Hh).
  unfold loop_body. fold (is_EOF sg c). rewrite He. cbn [mode].
  rewrite Hsp, Hh. cbn -[CONF_PARAM_VALUE_MAX_LEN Nat.ltb].
  apply Nat.ltb_lt in Hn. rewrite Hn. reflexivity.
Qed.

Lemma step_value_LF sg pn pv nf vf ln m :
  loop_body sg (mkLocals pn pv nf vf ln parse_value m) LF
  = Next (mkLocals pn (<[vf := NUL]> pv) nf (vf + 1) (int_wrap (ln + 1)) parse_skip_space
            (umap_insert (c_str pn) (c_str (<[vf := NUL]> pv)) m)).
Proof. destruct sg; reflexivity. Qed.

Lemma scan_value_chars sg rest : forall pn pv nf vf ln m,
  forallb (value_char sg) rest = true ->
  (vf + length rest <= CONF_PARAM_VALUE_MAX_LEN - 1)%nat ->
  while_get sg (mkLocals pn pv nf vf ln parse_value m) rest
  = Next (mkLocals pn (list_inserts vf rest pv) nf (vf + length rest) ln parse_value m).
Proof.
  induction rest as [|c rest IH]; intros pn pv nf vf ln m Hall Hlen.
  - cbn [while_get list_inserts length]. rewrite Nat.add_0_r. reflexivity.
  - cbn [forallb] in Hall. apply andb_true_iff in Hall as [Hc Hall].
    cbn [length] in Hlen. cbn [while_get].
    rewrite step_value_char by (assumption || lia).
    rewrite IH by (assumption || lia).
    rewrite Nat.add_1_r, list_inserts_shift. cbn [length].
    rewrite Nat.add_succ_r. reflexivity.
Qed.

(** ** Scanning a quoted value *)

Lemma step_quote_open sg dq pn pv nf vf ln m :
  loop_body sg (mkLocals pn pv nf vf ln parse_skip_space_after_equal m) (quote_char dq)
  = Next (mkLocals pn pv nf 0 ln (quote_mode dq) m).
Proof. destruct sg, dq; reflexivity. Qed.

Lemma step_quote_close sg dq pn pv nf vf ln m :
  loop_body sg (mkLocals pn pv nf vf ln (quote_mode dq) m) (quote_char dq)
  = Next (mkLocals pn (<[vf := NUL]> pv) nf (vf + 1) ln parse_skip_space
            (umap_insert (c_str pn) (c_str (<[vf := NUL]> pv)) m)).
Proof. destruct sg, dq; reflexivity. Qed.

Lemma step_quoted_char sg dq c pn pv nf vf ln m :
  quoted_char sg (quote_char dq) c = true ->
  (vf + 1 <= CONF_PARAM_VALUE_MAX_LEN - 1)%nat ->
  loop_body sg (mkLocals pn pv nf vf ln (quote_mode dq) m) c
  = Next (mkLocals pn (<[vf := c]> pv) nf (vf + 1) (lines_after ln [c]) (quote_mode dq) m).
Proof.
  intros H Hn. apply andb_true_iff in H as [Hq He]. apply negb_true_iff in He.
  unfold loop_body. fold (is_EOF sg c). rewrite He.
  apply Nat.ltb_ge in Hn.
  destruct dq; cbn [mode quote_mode]; unfold quoted_value_case;
    cbn [quote_char] in Hq; rewrite Hq; cbn [lines_after];
    destruct (Ascii.eqb c LF) eqn:Hl;
    cbn -[CONF_PARAM_VALUE_MAX_LEN Nat.ltb Z.add int_wrap]; rewrite Hn; reflexivity.
Qed.

Lemma scan_quoted_chars sg dq rest : forall pn pv nf vf ln m,
  forallb (quoted_char sg (quote_char dq)) rest = true ->
  (vf + length rest <= CONF_PARAM_VALUE_MAX_LEN - 1)%nat ->
  while_get sg (mkLocals pn pv nf vf ln (quote_mode dq) m) rest
  = Next (mkLocals pn (list_inserts vf rest pv) nf (vf + length rest)
            (lines_after ln rest) (quote_mode dq) m).
Proof.
  induction rest as [|c rest IH]; intros pn pv nf vf ln m Hall Hlen.
  - cbn [while_get list_inserts length lines_after].
    rewrite Nat.add_0_r. reflexivity.
  - cbn [forallb] in Hall. apply andb_true_iff in Hall as [Hc Hall].
    cbn [length] in Hlen. cbn [while_get].
    rewrite step_quoted_char by (assumption || lia).
    rewrite IH by (assumption || lia).
    rewrite Nat.add_1_r, list_inserts_shift. cbn [length lines_after].
    rewrite Nat.add_succ_r. reflexivity.
Qed.

(** ** Skipping *)

Lemma LF_is_space sg c : Ascii.eqb c LF = true -> isspace (char_to_int sg c) = true.
Proof. intros H. apply Ascii.eqb_eq in H. subst c. destruct sg; reflexivity. Qed.

Lemma space_char_facts sg c :
  space_char sg c = true ->
  is_EOF sg c = false /\ isspace (char_to_int sg c) = true.
Proof. unfold space_char. rewrite andb_true_iff, negb_true_iff. tauto. Qed.

Lemma step_space_after_equal sg c pn pv nf vf ln m :
  space_char sg c = true ->
  loop_body sg (mkLocals pn pv nf vf ln parse_skip_space_after_equal m) c
  = Next (mkLocals pn pv nf vf (lines_after ln [c]) parse_skip_space_after_equal m).
Proof.
  intros H. destruct (space_char_facts sg c H) as (He & Hsp).
  unfold loop_body. fold (is_EOF sg c). rewrite He. cbn [mode]. rewrite Hsp.
  cbn [lines_after]. destruct (Ascii.eqb c LF); reflexivity.
Qed.

Lemma skip_space_after_equal sg ws : forall pn pv nf vf ln m,
  forallb (space_char sg) ws = true ->
  while_get sg (mkLocals pn pv nf vf ln parse_skip_space_after_equal m) ws
  = Next (mkLocals pn pv nf vf (lines_after ln ws) parse_skip_space_after_equal m).
Proof.
  induction ws as [|c ws IH]; intros pn pv nf vf ln m Hall.
  - reflexivity.
  - cbn [forallb] in Hall. apply andb_true_iff in Hall as [Hc Hall].
    cbn [while_get]. rewrite step_space_after_equal by assumption.
    rewrite IH by assumption. reflexivity.
Qed.

Lemma step_junk_before_equal sg c pn pv nf vf ln m :
  junk_char sg c = true ->
  loop_body sg (mkLocals pn pv nf vf ln parse_skip_space_before_equal m) c
  = Next (mkLocals pn pv nf vf (lines_after ln [c]) parse_skip_space_before_equal m).
Proof.
  intros H. apply andb_true_iff in H as [Hq He].
  apply negb_true_iff in Hq. apply negb_true_iff in He.
  unfold loop_body. fold (is_EOF sg c). rewrite He. cbn [mode lines_after]. rewrite Hq.
  destruct (Ascii.eqb c LF) eqn:Hl.
  - rewrite (LF_is_space sg c Hl). reflexivity.
  - destruct (isspace (char_to_int sg c)); reflexivity.
Qed.

Lemma skip_junk_before_equal sg junk : forall pn pv nf vf ln m,
  forallb (junk_char sg) junk = true ->
  while_get sg (mkLocals pn pv nf vf ln parse_skip_space_before_equal m) junk
  = Next (mkLocals pn pv nf vf (lines_after ln junk) parse_skip_space_before_equal m).
Proof.
  induction junk as [|c junk IH]; intros pn pv nf vf ln m Hall.
  - reflexivity.
  - cbn [forallb] in Hall. apply andb_true_iff in Hall as [Hc Hall].
    cbn [while_get]. rewrite step_junk_before_equal by assumption.
    rewrite IH by assumption. reflexivity.
Qed.

(** A comment that runs to the end of the input leaves the map alone. *)
Lemma skip_comment sg l : forall pn pv nf vf ln m,
  forallb (fun c => negb (Ascii.eqb c LF)) l = true ->
  outcome (while_get sg (mkLocals pn pv nf vf ln parse_skip_comment_line m) l) = (0, m).
Proof.
  induction l as [|c l IH]; intros pn pv nf vf ln m Hall.
  - reflexivity.
  - cbn [forallb] in Hall. apply andb_true_iff in Hall as [Hc Hall].
    apply negb_true_iff in Hc. cbn [while_get]. unfold loop_body.
    destruct (char_to_int sg c =? EOF); [reflexivity|].
    cbn [mode]. rewrite Hc. apply IH. assumption.
Qed.

(** ** What every iteration does to the map *)

Lemma umap_insert_lookup k v m k' v' :
  m !! k' = Some v' -> umap_insert k v m !! k' = Some v'.
Proof.
  intros H. unfold umap_insert. destruct (m !! k) eqn:Hk; [assumption|].
  rewrite lookup_insert_ne; [assumption|]. intros ->. congruence.
Qed.

Ltac split_ifs :=
  repeat match goal with
         | |- context [if ?b then _ else _] => destruct b
         end.

(** The tests the loop body makes on the character [c]. *)
Ltac split_tests c :=
  repeat match goal with
         | |- context [Ascii.eqb c ?x] => destruct (Ascii.eqb c x)
         | |- context [isspace ?x] => destruct (isspace x)
         | |- context [isalpha ?x] => destruct (isalpha x)
         | |- context [isdigit ?x] => destruct (isdigit x)
         | |- context [Z.eqb ?x EOF] => destruct (Z.eqb x EOF)
         end.

(** The assignments to the locals, carried out. *)
Ltac norm_state :=
  cbv beta iota zeta delta
    [incr_line set_mode set_name_fill set_value_fill store_name store_value
     insert_pair clear_ret control_map set_line outcome in_quote
     param_name param_value name_fill value_fill line mode ret].

(** All the ways through the loop body from a state in a known mode. *)
Ltac loop_body_cases c :=
  unfold loop_body, quoted_value_case, set_line; cbn [mode];
  split_tests c; norm_state; split_ifs.

(** A [return] inside the loop always follows [ret->clear()] and carries one
    of the three parse errors. *)
Lemma loop_body_Return sg s c code s' :
  loop_body sg s c = Return code s' ->
  ret s' = ∅ /\
  (code = CONFERR_WRONGSYNTAX \/ code = CONFERR_WRONGPARAM \/ code = CONFERR_WRONGVALUE).
Proof.
  destruct s as [pn pv nf vf ln md m].
  destruct md; loop_body_cases c; intros H; inversion H; subst; cbn [ret]; auto.
Qed.

(** An iteration that does not [return] only adds to the map. *)
Lemma loop_body_keeps sg s c s' k v :
  loop_body sg s c = Next s' \/ loop_body sg s c = Break s' ->
  ret s !! k = Some v -> ret s' !! k = Some v.
Proof.
  destruct s as [pn pv nf vf ln md m]. cbn [ret]. intros H Hk. revert H.
  destruct md; loop_body_cases c; intros [H|H]; inversion H; subst;
    cbn [ret]; auto using umap_insert_lookup.
Qed.

Lemma while_get_keeps sg input : forall s s' k v,
  while_get sg s input = Next s' \/ while_get sg s input = Break s' ->
  ret s !! k = Some v -> ret s' !! k = Some v.
Proof.
  induction input as [|c input IH]; intros s s' k v H Hk.
  - cbn in H. destruct H as [H|H]; inversion H; subst; assumption.
  - cbn [while_get] in H. destruct (loop_body sg s c) as [s1|s1|code s1] eqn:Hb.
    + apply (IH s1 s' k v H). eapply loop_body_keeps; eauto.
    + destruct H as [H|H]; inversion H; subst. eapply loop_body_keeps; eauto.
    + destruct H as [H|H]; inversion H.
Qed.

(** Where the loop returns from. *)
Lemma while_get_Return sg input : forall s code s',
  while_get sg s input = Return code s' ->
  exists pre c post s1,
    input = pre ++ c :: post /\ while_get sg s pre = Next s1 /\
    loop_body sg s1 c = Return code s'.
Proof.
  induction input as [|c input IH]; intros s code s' H.
  - discriminate H.
  - cbn [while_get] in H. destruct (loop_body sg s c) as [s1|s1|code1 s1] eqn:Hb.
    + destruct (IH s1 code s' H) as (pre & c' & post & s2 & -> & Hpre & Hc).
      exists (c :: pre), c', post, s2. split; [reflexivity|]. split; [|assumption].
      cbn [while_get]. rewrite Hb. assumption.
    + discriminate H.
    + inversion H; subst. exists [], c, input, s. auto.
Qed.


(** ** The line counter does not steer the scan *)

Lemma loop_body_set_line sg l s c :
  control_map (set_line 0) (loop_body sg (set_line l s) c)
  = control_map (set_line 0) (loop_body sg s c).
Proof.
  destruct s as [pn pv nf vf ln md m].
  destruct md; loop_body_cases c; reflexivity.
Qed.

Lemma set_line_eq s1 s2 : set_line 0 s1 = set_line 0 s2 -> s1 = set_line (line s1) s2.
Proof.
  destruct s1, s2. unfold set_line. cbn. intros H. inversion H; subst. reflexivity.
Qed.

Lemma while_get_set_line sg input : forall l s,
  control_map (set_line 0) (while_get sg (set_line l s) input)
  = control_map (set_line 0) (while_get sg s input).
Proof.
  induction input as [|c input IH]; intros l s; cbn [while_get].
  - destruct s; reflexivity.
  - pose proof (loop_body_set_line sg l s c) as Hc.
    destruct (loop_body sg (set_line l s) c) as [s1|s1|c1 s1],
             (loop_body sg s c) as [s2|s2|c2 s2];
      cbn [control_map] in Hc; try discriminate Hc; try exact Hc.
    assert (Hs : set_line 0 s1 = set_line 0 s2) by congruence.
    rewrite (set_line_eq s1 s2 Hs). apply IH.
Qed.

Lemma outcome_set_line l r : outcome (control_map (set_line l) r) = outcome r.
Proof. destruct r; reflexivity. Qed.

(** Two runs that differ in the line counter only end alike. *)
Lemma outcome_line_irrelevant sg l s input :
  outcome (while_get sg (set_line l s) input) = outcome (while_get sg s input).
Proof.
  rewrite <- (outcome_set_line 0 (while_get sg (set_line l s) input)).
  rewrite while_get_set_line. apply outcome_set_line.
Qed.

Lemma parse_config_outcome sg input m :
  parse_config sg (Some input) (Some m)
  = (fst (outcome (while_get sg (initial_locals m) input)),
     Some (snd (outcome (while_get sg (initial_locals m) input)))).
Proof. unfold parse_config. destruct (while_get sg (initial_locals m) input); reflexivity. Qed.

(** ** Whole [name=value] pieces of input *)

Lemma valid_name_no_NUL sg k :
  valid_name sg k = true -> forallb (fun c => negb (Ascii.eqb c NUL)) k = true.
Proof.
  destruct k as [|c rest]; [discriminate|]. cbn [valid_name forallb].
  rewrite !andb_true_iff. intros [Hc Hrest]. split.
  - destruct (isalpha_facts sg c Hc) as (_ & _ & _ & _ & ->). reflexivity.
  - clear Hc. induction rest as [|x rest IH]; [reflexivity|].
    cbn [forallb] in *. apply andb_true_iff in Hrest as [Hx Hrest].
    rewrite (name_char_not_NUL sg x Hx). cbn. auto.
Qed.

Lemma plain_char_facts sg c :
  plain_char sg c = true ->
  value_char sg c = true /\ Ascii.eqb c SQUOTE = false /\ Ascii.eqb c DQUOTE = false
  /\ Ascii.eqb c NUL = false /\ (forall dq, quoted_char sg (quote_char dq) c = true).
Proof.
  unfold plain_char, value_char, quoted_char.
  rewrite !andb_true_iff, !negb_true_iff.
  intros (((((Hsp & Hh) & Hs) & Hd) & Hn) & He).
  rewrite Hsp, Hh, He, Hs, Hd, Hn. repeat split.
  intros [|]; cbn [quote_char]; [rewrite Hd | rewrite Hs]; reflexivity.
Qed.

Lemma plain_value_facts sg v :
  forallb (plain_char sg) v = true ->
  forallb (value_char sg) v = true
  /\ forallb (fun c => negb (Ascii.eqb c NUL)) v = true
  /\ (forall dq, forallb (quoted_char sg (quote_char dq)) v = true).
Proof.
  induction v as [|c v IH]; cbn [forallb]; [auto|].
  rewrite andb_true_iff. intros [Hc Hv].
  destruct (plain_char_facts sg c Hc) as (H1 & _ & _ & H4 & H5).
  destruct (IH Hv) as (I1 & I2 & I3).
  rewrite H1, I1, H4, I2. repeat split. intros dq. rewrite H5, I3. reflexivity.
Qed.

(** From the start of a name to the [=] after it. *)
Lemma scan_name_equals sg k pn pv nf vf ln m :
  valid_name sg k = true ->
  (length k <= CONF_PARAM_NAME_MAX_LEN - 1)%nat ->
  while_get sg (mkLocals pn pv nf vf ln parse_skip_space m) (k ++ [EQUALS])
  = Next (mkLocals (<[length k := NUL]> (list_inserts 0 k pn)) pv (length k + 1) vf ln
            parse_skip_space_after_equal m).
Proof.
  intros Hk Hlen. rewrite while_get_app, scan_name by assumption.
  cbn [while_get]. rewrite step_name_equals. reflexivity.
Qed.

(** A name that does not fit the buffer. *)
Lemma scan_name_overflow sg k rest pn pv nf vf ln m :
  valid_name sg k = true ->
  (CONF_PARAM_NAME_MAX_LEN <= length k)%nat ->
  outcome (while_get sg (mkLocals pn pv nf vf ln parse_skip_space m) (k ++ rest))
  = (CONFERR_WRONGPARAM, ∅).
Proof.
  intros Hk Hlen. destruct k as [|c0 k]; [discriminate|].
  cbn [valid_name] in Hk. apply andb_true_iff in Hk as [Hc0 Hk].
  unfold CONF_PARAM_NAME_MAX_LEN in Hlen. cbn [length] in Hlen.
  rewrite <- (take_drop 28 k) in Hk |- *.
  rewrite forallb_app in Hk. apply andb_true_iff in Hk as [Hk1 Hk2].
  assert (Hl1 : length (take 28 k) = 28%nat) by (rewrite length_take; lia).
  destruct (drop 28 k) as [|c k2] eqn:Hd.
  { apply (f_equal length) in Hd. rewrite length_drop in Hd. cbn in Hd. lia. }
  cbn [forallb] in Hk2. apply andb_true_iff in Hk2 as [Hc Hk2].
  cbn [app while_get]. rewrite step_name_start by assumption.
  rewrite <- app_assoc, while_get_app.
  rewrite scan_name_chars by (assumption || (rewrite Hl1; cbn; lia)).
  cbn [app while_get]. rewrite step_name_overflow; [reflexivity|assumption|].
  rewrite Hl1. cbn. lia.
Qed.

(** An unquoted value and the newline that ends it. *)
Lemma scan_value_LF sg v pn pv nf vf ln m :
  v <> [] -> forallb (plain_char sg) v = true ->
  (length v <= CONF_PARAM_VALUE_MAX_LEN - 1)%nat ->
  while_get sg (mkLocals pn pv nf vf ln parse_skip_space_after_equal m) (v ++ [LF])
  = Next (mkLocals pn (<[length v := NUL]> (list_inserts 0 v pv)) nf (length v + 1) (int_wrap (ln + 1))
            parse_skip_space
            (umap_insert (c_str pn) (c_str (<[length v := NUL]> (list_inserts 0 v pv))) m)).
Proof.
  intros Hne Hv Hlen. destruct v as [|c0 v]; [congruence|].
  cbn [forallb] in Hv. apply andb_true_iff in Hv as [Hc0 Hv].
  destruct (plain_char_facts sg c0 Hc0) as (H1 & H2 & H3 & _).
  destruct (plain_value_facts sg v Hv) as (Hv1 & _).
  cbn [length] in Hlen.
  cbn [app while_get]. rewrite step_value_first by assumption.
  rewrite while_get_app, scan_value_chars by (assumption || lia).
  cbn [while_get]. rewrite step_value_LF, list_inserts_shift. reflexivity.
Qed.

(** An unquoted value that does not fit the buffer. *)
Lemma scan_value_overflow sg v rest pn pv nf vf ln m :
  forallb (plain_char sg) v = true ->
  (CONF_PARAM_VALUE_MAX_LEN <= length v)%nat ->
  outcome (while_get sg (mkLocals pn pv nf vf ln parse_skip_space_after_equal m) (v ++ rest))
  = (CONFERR_WRONGVALUE, ∅).
Proof.
  intros Hv Hlen. unfold CONF_PARAM_VALUE_MAX_LEN in Hlen.
  destruct v as [|c0 v]; [cbn [length] in Hlen; lia|].
  cbn [forallb] in Hv. apply andb_true_iff in Hv as [Hc0 Hv].
  destruct (plain_char_facts sg c0 Hc0) as (H1 & H2 & H3 & _).
  destruct (plain_value_facts sg v Hv) as (Hv1 & _). clear Hv.
  cbn [length] in Hlen.
  rewrite <- (take_drop 253 v) in Hv1 |- *.
  rewrite forallb_app in Hv1. apply andb_true_iff in Hv1 as [Hk1 Hk2].
  assert (Hl1 : length (take 253 v) = 253%nat) by (rewrite length_take; lia).
  destruct (drop 253 v) as [|c k2] eqn:Hd.
  { apply (f_equal length) in Hd. rewrite length_drop in Hd. cbn in Hd. lia. }
  cbn [forallb] in Hk2. apply andb_true_iff in Hk2 as [Hc Hk2].
  cbn [app while_get]. rewrite step_value_first by assumption.
  rewrite <- app_assoc, while_get_app.
  rewrite scan_value_chars by (assumption || (rewrite Hl1; cbn; lia)).
  cbn [app while_get]. rewrite step_value_overflow; [reflexivity|assumption|].
  rewrite Hl1. cbn. lia.
Qed.

(** A quoted value, from the opening to the closing delimiter. *)
Lemma scan_quoted_value sg dq v pn pv nf vf ln m :
  forallb (quoted_char sg (quote_char dq)) v = true ->
  (length v <= CONF_PARAM_VALUE_MAX_LEN - 1)%nat ->
  while_get sg (mkLocals pn pv nf vf ln parse_skip_space_after_equal m)
    (quote_char dq :: v ++ [quote_char dq])
  = Next (mkLocals pn (<[length v := NUL]> (list_inserts 0 v pv)) nf (length v + 1)
            (lines_after ln v) parse_skip_space
            (umap_insert (c_str pn) (c_str (<[length v := NUL]> (list_inserts 0 v pv))) m)).
Proof.
  intros Hv Hlen. cbn [while_get]. rewrite step_quote_open.
  rewrite while_get_app, scan_quoted_chars by (assumption || lia).
  cbn [while_get]. rewrite step_quote_close. reflexivity.
Qed.

Lemma step_skip_space_LF sg pn pv nf vf ln m :
  loop_body sg (mkLocals pn pv nf vf ln parse_skip_space m) LF
  = Next (mkLocals pn pv nf vf (int_wrap (ln + 1)) parse_skip_space m).
Proof. destruct sg; reflexivity. Qed.

Lemma umap_insert_empty k v : umap_insert k v ∅ = {[k := v]}.
Proof. unfold umap_insert. rewrite lookup_empty. apply insert_empty. Qed.

Lemma cons_as_app {A} (l : list A) x rest : l ++ x :: rest = (l ++ [x]) ++ rest.
Proof. rewrite <- app_assoc. reflexivity. Qed.

(** The line [k=v] with an unquoted value. *)
Lemma parse_unquoted_line sg k v :
  valid_name sg k = true ->
  (length k <= CONF_PARAM_NAME_MAX_LEN - 1)%nat ->
  v <> [] -> forallb (plain_char sg) v = true ->
  (length v <= CONF_PARAM_VALUE_MAX_LEN - 1)%nat ->
  parse_config sg (Some (k ++ EQUALS :: v ++ [LF])) (Some ∅)
  = (0, Some {[string_of_list_ascii k := string_of_list_ascii v]}).
Proof.
  intros Hk Hkl Hne Hv Hvl.
  destruct (plain_value_facts sg v Hv) as (_ & Hnul & _).
  unfold parse_config, initial_locals.
  rewrite cons_as_app, while_get_app, scan_name_equals by assumption.
  rewrite scan_value_LF by assumption.
  rewrite !c_str_written
    by (rewrite length_replicate; unfold CONF_PARAM_NAME_MAX_LEN, CONF_PARAM_VALUE_MAX_LEN in *; lia).
  rewrite !c_str_no_NUL by eauto using valid_name_no_NUL.
  rewrite umap_insert_empty. reflexivity.
Qed.

(** The same pair with the value between quotes, with or without the end
    of the line. *)
Lemma parse_quoted_line sg dq k v :
  valid_name sg k = true ->
  (length k <= CONF_PARAM_NAME_MAX_LEN - 1)%nat ->
  forallb (plain_char sg) v = true ->
  (length v <= CONF_PARAM_VALUE_MAX_LEN - 1)%nat ->
  parse_config sg (Some (k ++ EQUALS :: quote_char dq :: v ++ [quote_char dq])) (Some ∅)
  = (0, Some {[string_of_list_ascii k := string_of_list_ascii v]})
  /\ parse_config sg (Some (k ++ EQUALS :: quote_char dq :: v ++ [quote_char dq; LF])) (Some ∅)
  = (0, Some {[string_of_list_ascii k := string_of_list_ascii v]}).
Proof.
  intros Hk Hkl Hv Hvl.
  destruct (plain_value_facts sg v Hv) as (_ & Hnul & Hq).
  assert (Hrun : exists pn pv nf vf ln,
    while_get sg (initial_locals ∅) (k ++ EQUALS :: quote_char dq :: v ++ [quote_char dq])
    = Next (mkLocals pn pv nf vf ln parse_skip_space
              {[string_of_list_ascii k := string_of_list_ascii v]})).
  { unfold initial_locals.
    rewrite cons_as_app, while_get_app, scan_name_equals by assumption.
    rewrite scan_quoted_value by auto.
    rewrite !c_str_written
      by (rewrite length_replicate;
          unfold CONF_PARAM_NAME_MAX_LEN, CONF_PARAM_VALUE_MAX_LEN in *; lia).
    rewrite !c_str_no_NUL by eauto using valid_name_no_NUL.
    rewrite umap_insert_empty. eauto 10. }
  destruct Hrun as (pn & pv & nf & vf & ln & Hrun). split.
  - unfold parse_config. rewrite Hrun. reflexivity.
  - unfold parse_config.
    change (k ++ EQUALS :: quote_char dq :: v ++ [quote_char dq; LF])
      with (k ++ EQUALS :: quote_char dq :: v ++ [quote_char dq] ++ [LF]).
    rewrite (app_assoc v), (app_comm_cons _ [LF] (quote_char dq)),
      (app_comm_cons _ [LF] EQUALS), app_assoc, while_get_app, Hrun.
    cbn [while_get]. rewrite step_skip_space_LF. reflexivity.
Qed.

(** ** Whole lines

    The file of the usage example parses to its four pairs. *)

Example example_conf_parsed sg :
  parse_config sg (Some example_conf) (Some ∅)
  = (0, Some (list_to_map [("host", "mysql.example.com"); ("user", "dba_admin");
                           ("password", "helloworld"); ("database", "testdb123")]%string)).
Proof. destruct sg; vm_compute; reflexivity. Qed.

Lemma step_name_space sg w pn pv nf vf ln m :
  space_char sg w = true ->
  loop_body sg (mkLocals pn pv nf vf ln parse_param_name m) w
  = Next (mkLocals (<[nf := NUL]> pn) pv (nf + 1) vf (lines_after ln [w])
            parse_skip_space_before_equal m).
Proof.
  intros H. destruct (space_char_facts sg w H) as (He & Hsp).
  unfold loop_body. fold (is_EOF sg w). rewrite He. cbn [mode]. rewrite Hsp.
  cbn [lines_after]. destruct (Ascii.eqb w LF); reflexivity.
Qed.

Lemma step_equals_before_equal sg pn pv nf vf ln m :
  loop_body sg (mkLocals pn pv nf vf ln parse_skip_space_before_equal m) EQUALS
  = Next (mkLocals pn pv nf vf ln parse_skip_space_after_equal m).
Proof. destruct sg; reflexivity. Qed.

(** X16. After a name and the whitespace that ends it, text that holds no
    [=] and no byte that compares equal to [EOF] is passed over up to the
    first [=]: the line [k <text> = v] succeeds with [k] bound to the value
    after that [=]. *)
Lemma spaced_name_bound_after_junk sg k w junk v :
  valid_name sg k = true ->
  (length k <= CONF_PARAM_NAME_MAX_LEN - 1)%nat ->
  space_char sg w = true ->
  forallb (junk_char sg) junk = true ->
  v <> [] -> forallb (plain_char sg) v = true ->
  (length v <= CONF_PARAM_VALUE_MAX_LEN - 1)%nat ->
  parse_config sg (Some (k ++ w :: junk ++ EQUALS :: v ++ [LF])) (Some ∅) = success_with k v.
Proof.
  intros Hk Hkl Hw Hjunk Hne Hv Hvl.
  destruct (plain_value_facts sg v Hv) as (_ & Hnul & _).
  unfold parse_config, initial_locals, success_with.
  rewrite while_get_app, scan_name by assumption.
  cbn [while_get]. rewrite step_name_space by assumption.
  rewrite while_get_app, skip_junk_before_equal by assumption.
  cbn [while_get]. rewrite step_equals_before_equal.
  rewrite scan_value_LF by assumption.
  rewrite !c_str_written
    by (rewrite length_replicate; unfold CONF_PARAM_NAME_MAX_LEN, CONF_PARAM_VALUE_MAX_LEN in *; lia).
  rewrite !c_str_no_NUL by eauto using valid_name_no_NUL.
  rewrite umap_insert_empty. reflexivity.
Qed.

(** X16 at the line [a junk text =1]. *)
Lemma spaced_name_bound_after_junk_witness :
  parse_config true
    (Some (chars "a" ++ " "%char :: chars "junk text " ++ EQUALS :: chars "1" ++ [LF]))
    (Some ∅)
  = success_with (chars "a") (chars "1").
Proof.
  apply (spaced_name_bound_after_junk true (chars "a") " "%char (chars "junk text ")
           (chars "1")); first [reflexivity | discriminate | (vm_compute; lia)].
Defined.

Lemma step_EOF_byte_in_quote dq pn pv nf vf ln m :
  loop_body true (mkLocals pn pv nf vf ln (quote_mode dq) m) xFF
  = Break (mkLocals pn (<[vf := NUL]> pv) nf vf ln (quote_mode dq)
             (umap_insert (c_str pn) (c_str (<[vf := NUL]> pv)) m)).
Proof. destruct dq; reflexivity. Qed.

(** With a signed [char], the byte 0xFF inside a quoted value commits what
    was read of the value and ends the scan. *)
Lemma quoted_value_cut_at_EOF_byte dq k v post :
  valid_name true k = true ->
  (length k <= CONF_PARAM_NAME_MAX_LEN - 1)%nat ->
  forallb (quoted_char true (quote_char dq)) v = true ->
  (length v <= CONF_PARAM_VALUE_MAX_LEN - 1)%nat ->
  parse_config true (Some (k ++ EQUALS :: quote_char dq :: v ++ xFF :: post)) (Some ∅)
  = (0, Some {[string_of_list_ascii k := c_str v]}).
Proof.
  intros Hk Hkl Hv Hvl.
  unfold parse_config, initial_locals.
  rewrite cons_as_app, while_get_app, scan_name_equals by assumption.
  cbn [while_get]. rewrite step_quote_open.
  rewrite while_get_app, scan_quoted_chars by (assumption || lia).
  cbn [while_get]. rewrite step_EOF_byte_in_quote.
  change (0 + length v)%nat with (length v).
  rewrite !c_str_written
    by (rewrite length_replicate; unfold CONF_PARAM_NAME_MAX_LEN, CONF_PARAM_VALUE_MAX_LEN in *; lia).
  rewrite (c_str_no_NUL k) by eauto using valid_name_no_NUL.
  rewrite umap_insert_empty. reflexivity.
Qed.

(** Two lines for the same name: the first value stays. *)
Lemma duplicate_name_keeps_first sg k v1 v2 :
  valid_name sg k = true ->
  (length k <= CONF_PARAM_NAME_MAX_LEN - 1)%nat ->
  v1 <> [] -> forallb (plain_char sg) v1 = true ->
  (length v1 <= CONF_PARAM_VALUE_MAX_LEN - 1)%nat ->
  v2 <> [] -> forallb (plain_char sg) v2 = true ->
  (length v2 <= CONF_PARAM_VALUE_MAX_LEN - 1)%nat ->
  parse_config sg (Some ((k ++ EQUALS :: v1 ++ [LF]) ++ (k ++ EQUALS :: v2 ++ [LF]))) (Some ∅)
  = success_with k v1.
Proof.
  intros Hk Hkl Hne1 Hv1 Hvl1 Hne2 Hv2 Hvl2.
  destruct (plain_value_facts sg v1 Hv1) as (_ & Hnul1 & _).
  destruct (plain_value_facts sg v2 Hv2) as (_ & Hnul2 & _).
  unfold parse_config, initial_locals, success_with.
  rewrite while_get_app.
  rewrite cons_as_app, while_get_app, scan_name_equals by assumption.
  rewrite scan_value_LF by assumption.
  rewrite cons_as_app, while_get_app, scan_name_equals by assumption.
  rewrite scan_value_LF by assumption.
  rewrite !c_str_written
    by (rewrite ?length_insert, ?length_inserts, length_replicate;
        unfold CONF_PARAM_NAME_MAX_LEN, CONF_PARAM_VALUE_MAX_LEN in *; lia).
  rewrite !c_str_no_NUL by eauto using valid_name_no_NUL.
  rewrite umap_insert_empty.
  unfold umap_insert. rewrite lookup_singleton_eq. reflexivity.
Qed.

(** ** An empty value before a comment *)

Lemma step_hash_after_equal sg pn pv nf vf ln m :
  loop_body sg (mkLocals pn pv nf vf ln parse_skip_space_after_equal m) HASH
  = Next (mkLocals pn (<[0%nat := NUL]> pv) nf 0 ln parse_skip_comment_line
            (umap_insert (c_str pn) (c_str (<[0%nat := NUL]> pv)) m)).
Proof. destruct sg; reflexivity. Qed.

Lemma c_str_NUL_first buf : c_str (<[0%nat := NUL]> buf) = EmptyString.
Proof. destruct buf; reflexivity. Qed.

Lemma name_buffer_fits (k : list ascii) :
  (length k <= CONF_PARAM_NAME_MAX_LEN - 1)%nat ->
  (length k < length (replicate CONF_PARAM_NAME_MAX_LEN NUL))%nat.
Proof. rewrite length_replicate. unfold CONF_PARAM_NAME_MAX_LEN. lia. Qed.

(** ** The result of a call *)

Lemma while_get_Return_code sg input s code s' :
  while_get sg s input = Return code s' -> code <> 0 /\ ret s' = ∅.
Proof.
  intros H. apply while_get_Return in H as (pre & c & post & s1 & _ & _ & H).
  apply loop_body_Return in H as [Hr Hc]. split; [|assumption].
  destruct Hc as [ -> | [ -> | -> ] ]; discriminate.
Qed.

Lemma parse_config_success sg input m0 m :
  parse_config sg (Some input) (Some m0) = (0, Some m) ->
  exists s,
    (while_get sg (initial_locals m0) input = Next s
     \/ while_get sg (initial_locals m0) input = Break s) /\ ret s = m.
Proof.
  unfold parse_config.
  destruct (while_get sg (initial_locals m0) input) as [s|s|code s] eqn:Hw;
    intros H; inversion H; subst; eauto.
  apply while_get_Return_code in Hw as [Hc _]. congruence.
Qed.

Lemma mode_after_Some sg m0 pre md :
  mode_after sg m0 pre = Some md ->
  exists pn pv nf vf ln m,
    while_get sg (initial_locals m0) pre = Next (mkLocals pn pv nf vf ln md m).
Proof.
  unfold mode_after.
  destruct (while_get sg (initial_locals m0) pre) as [[pn pv nf vf ln md' m]|s|code s];
    intros H; inversion H; subst; eauto 10.
Qed.

(** ** The buffers

    The source leaves [param_name] and [param_value] uninitialised and
    indexes them without a range check. Neither is observable: every store
    is inside its buffer, and the result of the call is the same whatever
    the two buffers hold at the start. *)

Lemma take_store (l1 l2 : list ascii) i c :
  take i l1 = take i l2 -> (i < length l1)%nat -> (i < length l2)%nat ->
  take (i + 1) (<[i := c]> l1) = take (i + 1) (<[i := c]> l2).
Proof.
  intros H H1 H2. rewrite Nat.add_1_r.
  rewrite !(take_S_r _ _ c) by (apply list_lookup_insert_eq; assumption).
  rewrite !take_insert_ge by lia. rewrite H. reflexivity.
Qed.

Lemma c_str_store_NUL : forall i (l1 l2 : list ascii),
  take i l1 = take i l2 -> (i < length l1)%nat -> (i < length l2)%nat ->
  c_str (<[i := NUL]> l1) = c_str (<[i := NUL]> l2).
Proof.
  induction i as [|i IH]; intros [|a l1] [|b l2] H H1 H2; cbn [length] in *; try lia.
  - reflexivity.
  - cbn [take] in H. inversion H; subst.
    change (<[S i := NUL]> (b :: l1)) with (b :: <[i := NUL]> l1).
    change (<[S i := NUL]> (b :: l2)) with (b :: <[i := NUL]> l2).
    cbn [c_str]. rewrite (IH l1 l2) by (assumption || lia). reflexivity.
Qed.

Ltac bounds :=
  unfold CONF_PARAM_NAME_MAX_LEN, CONF_PARAM_VALUE_MAX_LEN in *;
  rewrite ?length_insert; try lia.

Ltac split_ifs_eqn :=
  repeat match goal with
         | |- context [if ?b then _ else _] => destruct b eqn:?
         end.

Ltac same_solver :=
  repeat match goal with
         | H : _ /\ _ |- _ => destruct H
         | H : (_ <? _)%nat = true |- _ => apply Nat.ltb_lt in H
         | H : (_ <? _)%nat = false |- _ => apply Nat.ltb_ge in H
         | |- _ /\ _ => split
         | |- True => exact I
         | |- ?x = ?x => reflexivity
         | |- take 0 _ = take 0 _ => reflexivity
         | |- length (<[_ := _]> _) = _ => rewrite length_insert; assumption
         | |- (_ < _)%nat => bounds
         | |- take (_ + 1) (<[_ := _]> _) = take (_ + 1) (<[_ := _]> _) =>
             apply take_store; [assumption | bounds | bounds]
         | |- take 1 (<[0%nat := _]> _) = take 1 (<[0%nat := _]> _) =>
             apply (take_store _ _ 0%nat); [reflexivity | bounds | bounds]
         | |- c_str (<[_ := NUL]> _) = c_str (<[_ := NUL]> _) =>
             apply c_str_store_NUL; [first [assumption | reflexivity] | bounds | bounds]
         | |- umap_insert _ _ _ = umap_insert _ _ _ => f_equal
         | |- _ => assumption
         end.

Lemma loop_body_same sg s1 s2 c :
  same_but_garbage s1 s2 -> same_control (loop_body sg s1 c) (loop_body sg s2 c).
Proof.
  destruct s1 as [pn1 pv1 nf vf ln md m], s2 as [pn2 pv2 nf2 vf2 ln2 md2 m2].
  unfold same_but_garbage, in_bounds.
  cbn [param_name param_value name_fill value_fill line mode ret].
  intros ((Ln1 & Lv1 & B1) & (Ln2 & Lv2 & B2) & <- & <- & <- & <- & <- & A).
  destruct md; unfold loop_body, quoted_value_case; cbn [mode];
    split_tests c; norm_state; split_ifs_eqn;
    unfold same_control, same_but_garbage, in_bounds;
    cbn [param_name param_value name_fill value_fill line mode ret];
    same_solver.
Qed.

Lemma while_get_same sg input : forall s1 s2,
  same_but_garbage s1 s2 -> same_control (while_get sg s1 input) (while_get sg s2 input).
Proof.
  induction input as [|c input IH]; intros s1 s2 H; cbn [while_get].
  - exact H.
  - pose proof (loop_body_same sg s1 s2 c H) as Hc.
    destruct (loop_body sg s1 c), (loop_body sg s2 c); cbn [same_control] in Hc;
      try contradiction; auto.
Qed.

Lemma same_control_outcome r1 r2 : same_control r1 r2 -> outcome r1 = outcome r2.
Proof.
  destruct r1 as [s1|s1|c1 s1], r2 as [s2|s2|c2 s2]; cbn; try contradiction.
  - intros (_ & _ & _ & _ & _ & _ & -> & _). reflexivity.
  - intros ->. reflexivity.
  - intros [-> ->]. reflexivity.
Qed.

(** The stores of a run stay inside the two buffers. *)
Lemma while_get_in_bounds sg input m s :
  while_get sg (initial_locals m) input = Next s -> in_bounds s.
Proof.
  intros H.
  assert (H0 : same_but_garbage (initial_locals m) (initial_locals m)).
  { unfold same_but_garbage, in_bounds, initial_locals. cbn.
    rewrite ?length_replicate. repeat split. }
  pose proof (while_get_same sg input _ _ H0) as Hs. rewrite H in Hs.
  cbn in Hs. apply Hs.
Qed.

(** The result does not depend on what the buffers hold at the start. *)
Lemma while_get_uninitialised sg input m pn0 pv0 :
  length pn0 = CONF_PARAM_NAME_MAX_LEN -> length pv0 = CONF_PARAM_VALUE_MAX_LEN ->
  outcome (while_get sg (mkLocals pn0 pv0 0 0 1 parse_skip_space m) input)
  = outcome (while_get sg (initial_locals m) input).
Proof.
  intros Hn Hv. apply same_control_outcome, while_get_same.
  unfold same_but_garbage, in_bounds, initial_locals. cbn.
  rewrite ?length_replicate. repeat split; assumption.
Qed.

(** ** What the rest of a scan depends on *)

Lemma loop_body_same_pending sg s1 s2 c :
  same_pending s1 s2 -> same_pending_control (loop_body sg s1 c) (loop_body sg s2 c).
Proof.
  destruct s1 as [pn1 pv1 nf1 vf1 ln1 md m], s2 as [pn2 pv2 nf2 vf2 ln2 md2 m2].
  unfold same_pending, in_bounds.
  cbn [param_name param_value name_fill value_fill line mode ret].
  intros ((Ln1 & Lv1 & B1) & (Ln2 & Lv2 & B2) & <- & <- & A).
  destruct md; try destruct A as (A1 & A2); try destruct A2 as (A2 & A3);
    subst; unfold loop_body, quoted_value_case; cbn [mode];
    split_tests c; norm_state; split_ifs_eqn;
    unfold same_pending_control, same_pending, in_bounds;
    cbn [param_name param_value name_fill value_fill line mode ret];
    same_solver.
Qed.

Lemma while_get_same_pending sg input : forall s1 s2,
  same_pending s1 s2 ->
  same_pending_control (while_get sg s1 input) (while_get sg s2 input).
Proof.
  induction input as [|c input IH]; intros s1 s2 H; cbn [while_get].
  - exact H.
  - pose proof (loop_body_same_pending sg s1 s2 c H) as Hc.
    destruct (loop_body sg s1 c), (loop_body sg s2 c); cbn [same_pending_control] in Hc;
      try contradiction; auto.
Qed.

Lemma same_pending_outcome r1 r2 : same_pending_control r1 r2 -> outcome r1 = outcome r2.
Proof.
  destruct r1 as [s1|s1|c1 s1], r2 as [s2|s2|c2 s2]; cbn; try contradiction.
  - intros (_ & _ & _ & -> & _). reflexivity.
  - intros ->. reflexivity.
  - intros [-> ->]. reflexivity.
Qed.

(** ** A parameter after whatever came before *)




(** * The claims *)

(** C1 (the code departs from the claim). At the end of the stream
    [fconf.get(c)] fails and the loop is left at once: the [c == EOF] block
    that commits an unterminated quoted value is not reached. For the input
    [key = 'unterminated] the call returns 0 and the map stays empty,
    whatever the signedness of [char]. *)
Theorem unterminated_quote_dropped_at_end_of_stream :
  forall sg, parse_config sg (Some (chars "key = 'unterminated")) (Some ∅) = (0, Some ∅).
Proof. intros [|]; vm_compute; reflexivity. Qed.

(** C2. When [parse_config] returns one of the three parse errors, the map
    is empty, and the error was raised by the loop body at some character
    [c] of the input, after a prefix scanned without stopping: whatever
    follows [c] is never read, the result is the same for every
    continuation. *)
Theorem parse_error_clears_map_and_aborts :
  forall sg input m0 code m,
    parse_config sg (Some input) (Some m0) = (code, Some m) ->
    code = CONFERR_WRONGPARAM \/ code = CONFERR_WRONGVALUE \/ code = CONFERR_WRONGSYNTAX ->
    m = ∅ /\
    exists pre c post s,
      input = pre ++ c :: post /\
      while_get sg (initial_locals m0) pre = Next s /\
      (exists s', loop_body sg s c = Return code s' /\ ret s' = ∅) /\
      forall post', parse_config sg (Some (pre ++ c :: post')) (Some m0) = (code, Some ∅).
Proof.
  intros sg input m0 code m H Hcode. unfold parse_config in H.
  destruct (while_get sg (initial_locals m0) input) as [s|s|code' s'] eqn:Hw;
    inversion H; subst; try (destruct Hcode as [?|[?|?]]; discriminate).
  destruct (while_get_Return_code _ _ _ _ _ Hw) as [_ Hret].
  split; [assumption|].
  apply while_get_Return in Hw as (pre & c & post & s1 & -> & Hpre & Hb).
  exists pre, c, post, s1. repeat split; try assumption.
  - eauto.
  - intros post'. unfold parse_config. rewrite while_get_app, Hpre.
    cbn [while_get]. rewrite Hb, Hret. reflexivity.
Qed.

(** C2 at the input [bad-name = x], which stops at the hyphen. *)
Lemma parse_error_clears_map_and_aborts_witness :
  (∅ : gmap string string) = ∅ /\
  exists pre c post s,
    chars "bad-name = x" = pre ++ c :: post /\
    while_get true (initial_locals ∅) pre = Next s /\
    (exists s', loop_body true s c = Return CONFERR_WRONGPARAM s' /\ ret s' = ∅) /\
    forall post', parse_config true (Some (pre ++ c :: post')) (Some ∅)
                  = (CONFERR_WRONGPARAM, Some ∅).
Proof.
  apply (parse_error_clears_map_and_aborts true (chars "bad-name = x") ∅
           CONFERR_WRONGPARAM ∅).
  - vm_compute. reflexivity.
  - left. reflexivity.
Defined.



(** C4, the counterexample: a name, [=] and an immediate end of line commit
    nothing (the claim has the name bound to the empty string); the newline
    is skipped as whitespace and the next line is taken for the value. *)
Lemma empty_value_at_end_of_line_counterexample :
  parse_config true (Some (chars "a=" ++ [LF])) (Some ∅) = (0, Some ∅)
  /\ parse_config true (Some (chars "a=" ++ [LF] ++ chars "b=2" ++ [LF])) (Some ∅)
     = (0, Some {["a" := "b=2"%string]}).
Proof. split; vm_compute; reflexivity. Qed.

(** C4, amended. A [#] after the [=], with any whitespace (line ends
    included) in between, commits the empty string for the pending name:
    the line [k=#...] parses to the map with [k] bound to the empty
    string. A name and [=] followed by whitespace only commit nothing. *)
Theorem empty_value_before_hash :
  forall sg k ws comment,
    valid_name sg k = true ->
    (length k <= CONF_PARAM_NAME_MAX_LEN - 1)%nat ->
    forallb (space_char sg) ws = true ->
    forallb (fun c => negb (Ascii.eqb c LF)) comment = true ->
    parse_config sg (Some (k ++ EQUALS :: ws ++ HASH :: comment)) (Some ∅)
    = (0, Some {[string_of_list_ascii k := EmptyString]})
    /\ parse_config sg (Some (k ++ EQUALS :: ws)) (Some ∅) = (0, Some ∅).
Proof.
  intros sg k ws comment Hk Hkl Hws Hcomment. split.
  - rewrite parse_config_outcome. unfold initial_locals.
    rewrite cons_as_app, while_get_app, scan_name_equals by assumption.
    rewrite while_get_app, skip_space_after_equal by assumption.
    cbn [while_get]. rewrite step_hash_after_equal, skip_comment by assumption.
    rewrite c_str_NUL_first, c_str_written by (apply name_buffer_fits; assumption).
    rewrite c_str_no_NUL by eauto using valid_name_no_NUL.
    rewrite umap_insert_empty. reflexivity.
  - unfold parse_config, initial_locals.
    rewrite cons_as_app, while_get_app, scan_name_equals by assumption.
    rewrite skip_space_after_equal by assumption. reflexivity.
Qed.

(** C4 at the lines [name= # comment] and [name= ]. *)
Lemma empty_value_before_hash_witness :
  parse_config true (Some (chars "name= # comment")) (Some ∅)
  = (0, Some {["name" := EmptyString]})
  /\ parse_config true (Some (chars "name= ")) (Some ∅) = (0, Some ∅).
Proof.
  apply (empty_value_before_hash true (chars "name") (chars " ") (chars " comment"));
    vm_compute; first [reflexivity | lia].
Defined.

(** C5, the counterexample: with the default buffer sizes a name of 29
    characters and a value of 254 characters are accepted (the claim has
    29 and 254 as the lengths that fail). *)
Lemma name_of_29_and_value_of_254_counterexample :
  parse_config true
    (Some (replicate 29 "a"%char ++ EQUALS :: replicate 254 "x"%char ++ [LF])) (Some ∅)
  = (0, Some {[string_of_list_ascii (replicate 29 "a"%char)
               := string_of_list_ascii (replicate 254 "x"%char)]}).
Proof. vm_compute. reflexivity. Qed.

(** C5, amended. The bounds are the buffer sizes: a name is accepted up to
    [CONF_PARAM_NAME_MAX_LEN - 1 = 29] characters and fails with WRONG_PARAM
    from [CONF_PARAM_NAME_MAX_LEN = 30] on; a value is accepted up to
    [CONF_PARAM_VALUE_MAX_LEN - 1 = 254] characters and fails with
    WRONG_VALUE from [CONF_PARAM_VALUE_MAX_LEN = 255] on. *)
Theorem name_and_value_length_bounds :
  forall sg k v,
    valid_name sg k = true ->
    v <> [] -> forallb (plain_char sg) v = true ->
    parse_config sg (Some (k ++ EQUALS :: v ++ [LF])) (Some ∅)
    = if (CONF_PARAM_NAME_MAX_LEN <=? length k)%nat
      then (CONFERR_WRONGPARAM, Some ∅)
      else if (CONF_PARAM_VALUE_MAX_LEN <=? length v)%nat
           then (CONFERR_WRONGVALUE, Some ∅)
           else (0, Some {[string_of_list_ascii k := string_of_list_ascii v]}).
Proof.
  intros sg k v Hk Hne Hv.
  destruct (CONF_PARAM_NAME_MAX_LEN <=? length k)%nat eqn:Hkl.
  - apply Nat.leb_le in Hkl.
    rewrite parse_config_outcome. unfold initial_locals.
    rewrite scan_name_overflow by assumption. reflexivity.
  - apply Nat.leb_gt in Hkl.
    assert (Hkl' : (length k <= CONF_PARAM_NAME_MAX_LEN - 1)%nat) by lia.
    destruct (CONF_PARAM_VALUE_MAX_LEN <=? length v)%nat eqn:Hvl.
    + apply Nat.leb_le in Hvl.
      rewrite parse_config_outcome. unfold initial_locals.
      rewrite cons_as_app, while_get_app, scan_name_equals by assumption.
      rewrite scan_value_overflow by assumption. reflexivity.
    + apply Nat.leb_gt in Hvl. apply parse_unquoted_line; try assumption. lia.
Qed.

(** C5 at the four boundary lengths. *)
Lemma name_and_value_length_bounds_witness :
  parse_config true
    (Some (replicate 29 "a"%char ++ EQUALS :: replicate 254 "x"%char ++ [LF])) (Some ∅)
  = (0, Some {[string_of_list_ascii (replicate 29 "a"%char)
               := string_of_list_ascii (replicate 254 "x"%char)]})
  /\ parse_config true
       (Some (replicate 30 "a"%char ++ EQUALS :: replicate 254 "x"%char ++ [LF])) (Some ∅)
     = (CONFERR_WRONGPARAM, Some ∅)
  /\ parse_config true
       (Some (replicate 29 "a"%char ++ EQUALS :: replicate 255 "x"%char ++ [LF])) (Some ∅)
     = (CONFERR_WRONGVALUE, Some ∅).
Proof.
  split; [|split].
  - apply (name_and_value_length_bounds true (replicate 29 "a"%char) (replicate 254 "x"%char));
      [reflexivity | discriminate | reflexivity].
  - apply (name_and_value_length_bounds true (replicate 30 "a"%char) (replicate 254 "x"%char));
      [reflexivity | discriminate | reflexivity].
  - apply (name_and_value_length_bounds true (replicate 29 "a"%char) (replicate 255 "x"%char));
      [reflexivity | discriminate | reflexivity].
Defined.

(** C6, the counterexample: the input [k=v] as written, where the stream
    ends after the unquoted value, commits nothing, while [k='v'] binds
    [k]; and for the empty value [k=] followed by a newline commits nothing
    while [k=''] binds [k] to the empty string. *)
Lemma unquoted_and_quoted_differ_counterexample :
  parse_config true (Some (chars "k=v")) (Some ∅) = (0, Some ∅)
  /\ parse_config true (Some (chars "k='v'")) (Some ∅) = (0, Some {["k" := "v"%string]})
  /\ parse_config true (Some (chars "k=" ++ [LF])) (Some ∅) = (0, Some ∅)
  /\ parse_config true (Some (chars "k=''" ++ [LF])) (Some ∅)
     = (0, Some {["k" := EmptyString]}).
Proof. repeat split; vm_compute; reflexivity. Qed.

(** C6, amended. For a name [k] of at most 29 characters and a non-empty
    value [v] of at most 254 characters with no whitespace, [#], quote, NUL
    or byte equal to [EOF], the lines [k=v], [k='v'] and [k="v"], each ended
    by a newline, parse to the same map: [k] bound to [v], the quotes
    stripped. The quoted forms do so without the newline too. *)
Theorem unquoted_and_quoted_agree :
  forall sg k v,
    valid_name sg k = true ->
    (length k <= CONF_PARAM_NAME_MAX_LEN - 1)%nat ->
    v <> [] -> forallb (plain_char sg) v = true ->
    (length v <= CONF_PARAM_VALUE_MAX_LEN - 1)%nat ->
    parse_config sg (Some (k ++ EQUALS :: v ++ [LF])) (Some ∅) = success_with k v
    /\ parse_config sg (Some (k ++ EQUALS :: SQUOTE :: v ++ [SQUOTE; LF])) (Some ∅)
       = success_with k v
    /\ parse_config sg (Some (k ++ EQUALS :: DQUOTE :: v ++ [DQUOTE; LF])) (Some ∅)
       = success_with k v
    /\ parse_config sg (Some (k ++ EQUALS :: SQUOTE :: v ++ [SQUOTE])) (Some ∅)
       = success_with k v
    /\ parse_config sg (Some (k ++ EQUALS :: DQUOTE :: v ++ [DQUOTE])) (Some ∅)
       = success_with k v.
Proof.
  intros sg k v Hk Hkl Hne Hv Hvl. unfold success_with.
  destruct (parse_quoted_line sg false k v Hk Hkl Hv Hvl) as [Hs Hsl].
  destruct (parse_quoted_line sg true k v Hk Hkl Hv Hvl) as [Hd Hdl].
  cbn [quote_char] in *.
  repeat split; try assumption. apply parse_unquoted_line; assumption.
Qed.

(** C6 at [k=v]. *)
Lemma unquoted_and_quoted_agree_witness :
  parse_config true (Some (chars "k=v" ++ [LF])) (Some ∅)
  = (0, Some {["k" := "v"%string]})
  /\ parse_config true (Some (chars "k='v'" ++ [LF])) (Some ∅)
     = (0, Some {["k" := "v"%string]})
  /\ parse_config true (Some (chars "k=" ++ DQUOTE :: chars "v" ++ [DQUOTE; LF])) (Some ∅)
     = (0, Some {["k" := "v"%string]})
  /\ parse_config true (Some (chars "k='v'")) (Some ∅)
     = (0, Some {["k" := "v"%string]})
  /\ parse_config true (Some (chars "k=" ++ DQUOTE :: chars "v" ++ [DQUOTE])) (Some ∅)
     = (0, Some {["k" := "v"%string]}).
Proof.
  apply (unquoted_and_quoted_agree true (chars "k") (chars "v"));
    first [reflexivity | discriminate | (vm_compute; lia)].
Defined.

(** C7 (the code departs from the claim). The test [c == EOF], there for
    the end of the stream, is made on every character read, and where
    [char] is signed the byte 0xFF passes it. Met in the LineEnd state,
    where it is neither whitespace nor [#], that byte ends the call with 0
    and the pair kept instead of WRONG_SYNTAX; where [char] is unsigned the
    same input gives WRONG_SYNTAX, as the claim says. *)
Theorem line_end_byte_FF_ends_scan :
  mode_after true ∅ (chars "a=1 ") = Some parse_line_end
  /\ isspace (char_to_int true xFF) = false /\ Ascii.eqb xFF HASH = false
  /\ parse_config true (Some (chars "a=1 " ++ [xFF])) (Some ∅)
     = (0, Some {["a" := "1"%string]})
  /\ parse_config false (Some (chars "a=1 " ++ [xFF])) (Some ∅)
     = (CONFERR_WRONGSYNTAX, Some ∅).
Proof. repeat split; vm_compute; reflexivity. Qed.

(** X15. In the LineEnd state every character that is not whitespace, not
    [#] and does not compare equal to [EOF] makes the call return
    WRONG_SYNTAX at that character, with the map cleared, whatever
    follows. *)
Theorem garbage_after_value_is_syntax_error :
  forall sg pre c rest m0,
    mode_after sg m0 pre = Some parse_line_end ->
    isspace (char_to_int sg c) = false ->
    Ascii.eqb c HASH = false ->
    is_EOF sg c = false ->
    parse_config sg (Some (pre ++ c :: rest)) (Some m0) = (CONFERR_WRONGSYNTAX, Some ∅).
Proof.
  intros sg pre c rest m0 Hmode Hsp Hh He.
  apply mode_after_Some in Hmode as (pn & pv & nf & vf & ln & m & Hpre).
  unfold parse_config. rewrite while_get_app, Hpre. cbn [while_get].
  unfold loop_body. fold (is_EOF sg c). rewrite He. cbn [mode].
  rewrite Hsp, Hh. reflexivity.
Qed.

(** X15 at the line [a=1 x]. *)
Lemma garbage_after_value_is_syntax_error_witness :
  parse_config true (Some (chars "a=1 " ++ "x"%char :: chars " tail")) (Some ∅)
  = (CONFERR_WRONGSYNTAX, Some ∅).
Proof.
  apply (garbage_after_value_is_syntax_error true (chars "a=1 ") "x"%char (chars " tail") ∅);
    vm_compute; reflexivity.
Defined.

(** C8 (the code departs from the claim). The test [c == EOF], there for
    the end of the stream, is made on every character read, and where
    [char] is signed the byte 0xFF passes it. In the SkipSpaceBeforeEqual
    state that byte, a character other than [=], is not passed over: it
    ends the call with 0 and the name is never bound to the value after
    the [=]; where [char] is unsigned the same input binds it, as the
    claim says. *)
Theorem before_equal_byte_FF_ends_scan :
  mode_after true ∅ (chars "a ") = Some parse_skip_space_before_equal
  /\ Ascii.eqb xFF EQUALS = false
  /\ parse_config true (Some (chars "a " ++ xFF :: chars "=1" ++ [LF])) (Some ∅)
     = (0, Some ∅)
  /\ parse_config false (Some (chars "a " ++ xFF :: chars "=1" ++ [LF])) (Some ∅)
     = (0, Some {["a" := "1"%string]}).
Proof. repeat split; vm_compute; reflexivity. Qed.

(** In the SkipSpaceBeforeEqual state every character other than [=] that
    does not compare equal to [EOF] is passed over: the scanner stays in
    that state without error, and the call gives the result it gives with
    that text left out. *)
Lemma text_before_equal_is_discarded :
  forall sg pre junk rest m0,
    mode_after sg m0 pre = Some parse_skip_space_before_equal ->
    forallb (junk_char sg) junk = true ->
    mode_after sg m0 (pre ++ junk) = Some parse_skip_space_before_equal
    /\ parse_config sg (Some (pre ++ junk ++ EQUALS :: rest)) (Some m0)
       = parse_config sg (Some (pre ++ EQUALS :: rest)) (Some m0).
Proof.
  intros sg pre junk rest m0 Hmode Hjunk.
  apply mode_after_Some in Hmode as (pn & pv & nf & vf & ln & m & Hpre).
  split.
  - unfold mode_after. rewrite while_get_app, Hpre, skip_junk_before_equal by assumption.
    reflexivity.
  - rewrite !parse_config_outcome.
    rewrite !while_get_app, Hpre, while_get_app, skip_junk_before_equal by assumption.
    change (mkLocals pn pv nf vf (lines_after ln junk) parse_skip_space_before_equal m)
      with (set_line (lines_after ln junk)
              (mkLocals pn pv nf vf ln parse_skip_space_before_equal m)).
    rewrite outcome_line_irrelevant. reflexivity.
Qed.

(** The same at the line [a junk text =1]. *)
Lemma text_before_equal_is_discarded_witness :
  mode_after true ∅ (chars "a " ++ chars "junk text ")
  = Some parse_skip_space_before_equal
  /\ parse_config true (Some (chars "a " ++ chars "junk text " ++ EQUALS :: chars "1" ++ [LF]))
       (Some ∅)
     = parse_config true (Some (chars "a " ++ EQUALS :: chars "1" ++ [LF])) (Some ∅).
Proof.
  apply (text_before_equal_is_discarded true (chars "a ") (chars "junk text ")
           (chars "1" ++ [LF]) ∅); vm_compute; reflexivity.
Defined.

(** C9 (the code departs from the claim). The test [c == EOF], there for
    the end of the stream, is made on every character read, and where
    [char] is signed the byte 0xFF passes it. Right after a quoted value,
    where it is not alphabetic, not a space and not [#], that byte ends the
    call with 0 and the pair kept instead of WRONG_PARAM; where [char] is
    unsigned the same input gives WRONG_PARAM, as the claim says. The line
    [a='x' b='y'] gives both pairs either way. *)
Theorem after_quote_byte_FF_ends_scan :
  isalpha (char_to_int true xFF) = false /\ isspace (char_to_int true xFF) = false
  /\ Ascii.eqb xFF HASH = false
  /\ parse_config true (Some (chars "a='x'" ++ [xFF])) (Some ∅)
     = (0, Some {["a" := "x"%string]})
  /\ parse_config false (Some (chars "a='x'" ++ [xFF])) (Some ∅)
     = (CONFERR_WRONGPARAM, Some ∅)
  /\ parse_config true (Some (chars "a='x' b='y'")) (Some ∅)
     = (0, Some (<["b" := "y"%string]> {["a" := "x"%string]}))
  /\ parse_config false (Some (chars "a='x' b='y'")) (Some ∅)
     = (0, Some (<["b" := "y"%string]> {["a" := "x"%string]})).
Proof. repeat split; vm_compute; reflexivity. Qed.

(** X17. The closing delimiter of a quoted value puts the scanner
    back in the initial SkipSpace state, so what follows on the line starts
    a new parameter: a character there that is not alphabetic, not
    whitespace, not [#] and does not compare equal to [EOF] fails with
    WRONG_PARAM (not WRONG_SYNTAX), and the single line [a='x' b='y'] gives
    both pairs. *)
Theorem after_quoted_value_new_parameter :
  forall sg pre dq c rest m0,
    mode_after sg m0 pre = Some (quote_mode dq) ->
    isalpha (char_to_int sg c) = false ->
    isspace (char_to_int sg c) = false ->
    Ascii.eqb c HASH = false ->
    is_EOF sg c = false ->
    mode_after sg m0 (pre ++ [quote_char dq]) = Some parse_skip_space
    /\ parse_config sg (Some (pre ++ quote_char dq :: c :: rest)) (Some m0)
       = (CONFERR_WRONGPARAM, Some ∅)
    /\ parse_config sg (Some (chars "a='x' b='y'")) (Some ∅)
       = (0, Some (<["b" := "y"%string]> {["a" := "x"%string]})).
Proof.
  intros sg pre dq c rest m0 Hmode Ha Hsp Hh He.
  apply mode_after_Some in Hmode as (pn & pv & nf & vf & ln & m & Hpre).
  assert (Hl : Ascii.eqb c LF = false).
  { destruct (Ascii.eqb c LF) eqn:Hl; [|reflexivity].
    rewrite (LF_is_space sg c Hl) in Hsp. discriminate. }
  split; [|split].
  - unfold mode_after. rewrite while_get_app, Hpre. cbn [while_get].
    rewrite step_quote_close. reflexivity.
  - unfold parse_config. rewrite while_get_app, Hpre. cbn [while_get].
    rewrite step_quote_close.
    unfold loop_body. fold (is_EOF sg c). rewrite He. cbn [mode].
    rewrite Hh, Hl, Ha, Hsp. reflexivity.
  - destruct sg; vm_compute; reflexivity.
Qed.

(** X17 at the line [a='x'-]. *)
Lemma after_quoted_value_new_parameter_witness :
  mode_after true ∅ (chars "a='x" ++ [SQUOTE]) = Some parse_skip_space
  /\ parse_config true (Some (chars "a='x" ++ SQUOTE :: "-"%char :: chars " b=1")) (Some ∅)
     = (CONFERR_WRONGPARAM, Some ∅)
  /\ parse_config true (Some (chars "a='x' b='y'")) (Some ∅)
     = (0, Some (<["b" := "y"%string]> {["a" := "x"%string]})).
Proof.
  apply (after_quoted_value_new_parameter true (chars "a='x") false "-"%char (chars " b=1") ∅);
    vm_compute; reflexivity.
Defined.

(** C10. A character that compares equal to [EOF] can only be the byte 0xFF
    read into a signed [char]. When the scan reaches one, the call returns
    0 at once and nothing after it is read: in a quoted-value state the
    value accumulated so far is first committed under the pending name,
    in any other state the map is left as it is. *)
Theorem byte_equal_to_EOF_stops_scan :
  forall sg pre c post m0 s,
    while_get sg (initial_locals m0) pre = Next s ->
    is_EOF sg c = true ->
    (sg = true /\ c = xFF)
    /\ parse_config sg (Some (pre ++ c :: post)) (Some m0)
       = (0, Some (if in_quote (mode s)
                   then umap_insert (c_str (param_name s))
                          (c_str (<[value_fill s := NUL]> (param_value s))) (ret s)
                   else ret s)).
Proof.
  intros sg pre c post m0 s Hpre He. split.
  - apply is_EOF_spec. assumption.
  - unfold parse_config. rewrite while_get_app, Hpre. cbn [while_get].
    unfold loop_body. fold (is_EOF sg c). rewrite He.
    destruct (in_quote (mode s)); reflexivity.
Qed.

(** C10 at [key = 'abc], the byte 0xFF, and more text. *)
Lemma byte_equal_to_EOF_stops_scan_witness :
  (true = true /\ xFF = xFF)
  /\ parse_config true (Some (chars "key = 'abc" ++ xFF :: chars "def'")) (Some ∅)
     = (0, Some {["key" := "abc"%string]}).
Proof.
  eassert (Hs : while_get true (initial_locals ∅) (chars "key = 'abc") = Next _).
  { vm_compute. reflexivity. }
  pose proof (byte_equal_to_EOF_stops_scan true (chars "key = 'abc") xFF (chars "def'") ∅ _
                Hs eq_refl) as H.
  vm_compute in H. vm_compute. exact H.
Defined.

(** * Further properties of [parse_config]

    What the scan keeps, what it ignores and how it composes, beyond the
    claims above. *)

(** ** The two failures before the scan, and the return codes *)

(** X12. The null map is reported first ([CONFERR_NORET], whatever the file),
    then a stream that does not open ([CONFERR_ERRFILE]); both leave the
    caller's map as it was, and the scan itself never returns either code:
    it returns 0 or one of the three parse errors. *)
Theorem return_codes :
  forall sg fconf ret0 code m,
    parse_config sg fconf ret0 = (code, m) ->
    (code = CONFERR_NORET <-> ret0 = None)
    /\ (code = CONFERR_ERRFILE <-> is_Some ret0 /\ fconf = None)
    /\ (code = CONFERR_NORET \/ code = CONFERR_ERRFILE -> m = ret0)
    /\ (code = 0 \/ code = CONFERR_NORET \/ code = CONFERR_ERRFILE
        \/ code = CONFERR_WRONGSYNTAX \/ code = CONFERR_WRONGPARAM
        \/ code = CONFERR_WRONGVALUE).
Proof.
  intros sg fconf ret0 code m H. unfold parse_config in H.
  destruct ret0 as [m0|].
  2:{ inversion H; subst.
      repeat split; auto; try discriminate; try (intros [[x Hx] _]; discriminate Hx). }
  destruct fconf as [input|].
  2:{ inversion H; subst. repeat split; eauto; try discriminate. }
  assert (Hc : code = 0 \/ code = CONFERR_WRONGSYNTAX \/ code = CONFERR_WRONGPARAM
               \/ code = CONFERR_WRONGVALUE).
  { destruct (while_get sg (initial_locals m0) input) as [s|s|code' s] eqn:Hw;
      inversion H; subst; auto.
    apply while_get_Return in Hw as (pre & c & post & s1 & _ & _ & Hb).
    apply loop_body_Return in Hb as [_ Hb]. auto. }
  clear H.
  assert (Hn1 : code <> CONFERR_NORET)
    by (destruct Hc as [ -> | [ -> | [ -> | -> ] ] ]; discriminate).
  assert (Hn2 : code <> CONFERR_ERRFILE)
    by (destruct Hc as [ -> | [ -> | [ -> | -> ] ] ]; discriminate).
  repeat split; try tauto; try (intros X; contradiction);
    try (intros X; discriminate X); try (intros [_ X]; discriminate X).
Qed.

(** X12 at a map with one entry and a file that does not open. *)
Lemma return_codes_witness :
  (CONFERR_ERRFILE = CONFERR_NORET <-> Some ({["a" := "1"%string]} : gmap string string) = None)
  /\ (CONFERR_ERRFILE = CONFERR_ERRFILE
      <-> is_Some (Some ({["a" := "1"%string]} : gmap string string))
          /\ (None : option (list ascii)) = None)
  /\ (CONFERR_ERRFILE = CONFERR_NORET \/ CONFERR_ERRFILE = CONFERR_ERRFILE ->
      Some ({["a" := "1"%string]} : gmap string string) = Some {["a" := "1"%string]})
  /\ (CONFERR_ERRFILE = 0 \/ CONFERR_ERRFILE = CONFERR_NORET
      \/ CONFERR_ERRFILE = CONFERR_ERRFILE
      \/ CONFERR_ERRFILE = CONFERR_WRONGSYNTAX \/ CONFERR_ERRFILE = CONFERR_WRONGPARAM
      \/ CONFERR_ERRFILE = CONFERR_WRONGVALUE).
Proof.
  apply (return_codes true None (Some {["a" := "1"%string]}) CONFERR_ERRFILE
           (Some {["a" := "1"%string]})).
  reflexivity.
Defined.

(** ** What the scan keeps *)

(** X1. A call that succeeds only adds to the caller's map: every entry the
    map held before the call is still there, with its value. *)
Theorem success_keeps_caller_entries :
  forall sg input m0 m,
    parse_config sg (Some input) (Some m0) = (0, Some m) -> m0 ⊆ m.
Proof.
  intros sg input m0 m H. apply parse_config_success in H as (s & Hw & <-).
  apply map_subseteq_spec. intros k v Hk.
  eapply while_get_keeps; [exact Hw|exact Hk].
Qed.

(** X1 at a map that binds [a] and the lines [a=0] and [b=2]. *)
Lemma success_keeps_caller_entries_witness :
  ({["a" := "1"%string]} : gmap string string)
  ⊆ <["b" := "2"%string]> {["a" := "1"%string]}.
Proof.
  apply (success_keeps_caller_entries true (chars "a=0" ++ LF :: chars "b=2" ++ [LF])
           {["a" := "1"%string]}).
  vm_compute. reflexivity.
Defined.

(** X2. Whatever the input, while the loop runs the two buffers keep their
    declared sizes, [name_fill] stays below [CONF_PARAM_NAME_MAX_LEN] as long
    as a name is being read and [value_fill] below
    [CONF_PARAM_VALUE_MAX_LEN] as long as a value is: the stores
    [param_name[name_fill]] and [param_value[value_fill]] never leave the
    arrays. *)
Theorem scan_stays_inside_buffers :
  forall sg input m0 s,
    while_get sg (initial_locals m0) input = Next s -> in_bounds s.
Proof. intros sg input m0 s. apply while_get_in_bounds. Qed.

(** X2 in the middle of a quoted value. *)
Lemma scan_stays_inside_buffers_witness :
  in_bounds (final_locals (while_get true (initial_locals ∅) (chars "key = 'abc"))).
Proof.
  apply (scan_stays_inside_buffers true (chars "key = 'abc") ∅).
  vm_compute. reflexivity.
Defined.

(** X3. The arrays [param_name] and [param_value] are not initialised, and
    it does not matter: the call gives the same code and the same map
    whatever the two arrays hold when the loop starts. *)
Theorem result_independent_of_buffer_contents :
  forall sg input m pn0 pv0,
    length pn0 = CONF_PARAM_NAME_MAX_LEN ->
    length pv0 = CONF_PARAM_VALUE_MAX_LEN ->
    parse_config sg (Some input) (Some m)
    = (fst (outcome (while_get sg (mkLocals pn0 pv0 0 0 1 parse_skip_space m) input)),
       Some (snd (outcome (while_get sg (mkLocals pn0 pv0 0 0 1 parse_skip_space m) input)))).
Proof.
  intros sg input m pn0 pv0 Hn Hv.
  rewrite parse_config_outcome, (while_get_uninitialised sg input m pn0 pv0 Hn Hv).
  reflexivity.
Qed.

(** X3 at buffers filled with letters. *)
Lemma result_independent_of_buffer_contents_witness :
  parse_config true (Some (chars "a=1" ++ [LF])) (Some ∅)
  = (fst (outcome (while_get true
        (mkLocals (replicate 30 "x"%char) (replicate 255 "y"%char) 0 0 1 parse_skip_space ∅)
        (chars "a=1" ++ [LF]))),
     Some (snd (outcome (while_get true
        (mkLocals (replicate 30 "x"%char) (replicate 255 "y"%char) 0 0 1 parse_skip_space ∅)
        (chars "a=1" ++ [LF]))))).
Proof.
  apply (result_independent_of_buffer_contents true (chars "a=1" ++ [LF]) ∅
           (replicate 30 "x"%char) (replicate 255 "y"%char)); reflexivity.
Defined.

Lemma valid_name_snoc sg l c :
  valid_name sg l = true -> name_char sg c = true -> valid_name sg (l ++ [c]) = true.
Proof.
  destruct l as [|a l]; [discriminate|]. cbn [valid_name app].
  rewrite !andb_true_iff, forallb_app. cbn [forallb].
  intros [Ha Hl] Hc. rewrite Hl, Hc. auto.
Qed.

Lemma take_store_snoc (l : list ascii) i c :
  (i < length l)%nat -> take (i + 1) (<[i := c]> l) = take i l ++ [c].
Proof.
  intros H. rewrite Nat.add_1_r.
  rewrite (take_S_r _ _ c) by (apply list_lookup_insert_eq; assumption).
  rewrite take_insert_ge by lia. reflexivity.
Qed.

Lemma c_str_store_NUL_take : forall i (l : list ascii),
  (i < length l)%nat ->
  forallb (fun c => negb (Ascii.eqb c NUL)) (take i l) = true ->
  c_str (<[i := NUL]> l) = string_of_list_ascii (take i l).
Proof.
  induction i as [|i IH]; intros [|a l] Hlen Hn; cbn [length] in Hlen; try lia.
  - reflexivity.
  - cbn [take forallb] in Hn. apply andb_true_iff in Hn as [Ha Hn].
    apply negb_true_iff in Ha.
    change (<[S i := NUL]> (a :: l)) with (a :: <[i := NUL]> l).
    cbn [c_str take string_of_list_ascii]. rewrite Ha, IH by (assumption || lia).
    reflexivity.
Qed.

Lemma c_str_store_NUL_length : forall i (l : list ascii),
  (i < length l)%nat -> (String.length (c_str (<[i := NUL]> l)) <= i)%nat.
Proof.
  induction i as [|i IH]; intros [|a l] Hlen; cbn [length] in Hlen; try lia.
  - cbn. lia.
  - change (<[S i := NUL]> (a :: l)) with (a :: <[i := NUL]> l).
    cbn [c_str]. destruct (Ascii.eqb a NUL); cbn [String.length]; [lia|].
    specialize (IH l). lia.
Qed.

Lemma string_length_of_list l :
  String.length (string_of_list_ascii l) = length l.
Proof. induction l as [|a l IH]; cbn; congruence. Qed.

Lemma name_ok_c_str sg i (l : list ascii) :
  (i < length l)%nat -> (i < CONF_PARAM_NAME_MAX_LEN)%nat ->
  valid_name sg (take i l) = true ->
  name_ok sg (c_str (<[i := NUL]> l)) = true.
Proof.
  intros Hlen Hi Hv. rewrite c_str_store_NUL_take by eauto using valid_name_no_NUL.
  unfold name_ok. rewrite list_ascii_of_string_of_list_ascii, Hv, string_length_of_list.
  rewrite length_take. apply Nat.leb_le. unfold CONF_PARAM_NAME_MAX_LEN in *. lia.
Qed.

Lemma value_ok_c_str i (l : list ascii) :
  (i < length l)%nat -> (i < CONF_PARAM_VALUE_MAX_LEN)%nat ->
  value_ok (c_str (<[i := NUL]> l)) = true.
Proof.
  intros Hlen Hi. unfold value_ok. apply Nat.leb_le.
  pose proof (c_str_store_NUL_length i l Hlen). unfold CONF_PARAM_VALUE_MAX_LEN in *. lia.
Qed.

Lemma parsed_entries_ok_insert sg m0 m k v :
  parsed_entries_ok sg m0 m -> name_ok sg k = true -> value_ok v = true ->
  parsed_entries_ok sg m0 (umap_insert k v m).
Proof.
  intros Hm Hk Hv k' v' H. unfold umap_insert in H.
  destruct (m !! k) eqn:Hmk; [auto|].
  destruct (decide (k = k')) as [->|Hne].
  - rewrite lookup_insert_eq in H. inversion H; subst. auto.
  - rewrite lookup_insert_ne in H by assumption. auto.
Qed.

Ltac split_tests_eqn c :=
  repeat match goal with
         | |- context [Ascii.eqb c ?x] => destruct (Ascii.eqb c x) eqn:?
         | |- context [isspace ?x] => destruct (isspace x) eqn:?
         | |- context [isalpha ?x] => destruct (isalpha x) eqn:?
         | |- context [isdigit ?x] => destruct (isdigit x) eqn:?
         | |- context [Z.eqb ?x EOF] => destruct (Z.eqb x EOF) eqn:?
         end.

Ltac name_char_true :=
  unfold name_char;
  repeat match goal with
         | H : _ = true |- _ => rewrite H
         | H : _ = false |- _ => rewrite H
         end;
  rewrite ?orb_true_r; reflexivity.

Ltac well_formed_solver :=
  repeat match goal with
         | H : _ /\ _ |- _ => destruct H
         | H : (_ <? _)%nat = true |- _ => apply Nat.ltb_lt in H
         | H : (_ <? _)%nat = false |- _ => apply Nat.ltb_ge in H
         | |- _ /\ _ => split
         | |- True => exact I
         | |- ?x = ?x => reflexivity
         | |- length (<[_ := _]> _) = _ => rewrite length_insert; assumption
         | |- (_ < _)%nat => bounds
         | |- parsed_entries_ok _ _ (umap_insert _ _ _) => apply parsed_entries_ok_insert
         | |- value_ok (c_str (<[_ := NUL]> _)) = true => apply value_ok_c_str; bounds
         | |- name_ok _ (c_str (<[_ := NUL]> _)) = true =>
             apply name_ok_c_str; [bounds | bounds | assumption]
         | |- valid_name _ (take 1 (<[0%nat := ?c]> ?l)) = true =>
             change (take 1 (<[0%nat := c]> l)) with (take (0 + 1) (<[0%nat := c]> l));
             rewrite (take_store_snoc l 0 c) by bounds; rewrite take_0;
             cbn [app valid_name forallb];
             rewrite andb_true_r; assumption
         | |- valid_name _ (take (?i + 1) (<[?i := ?c]> ?l)) = true =>
             rewrite (take_store_snoc l i c) by bounds;
             apply valid_name_snoc; [assumption | name_char_true]
         | |- _ => assumption
         end.

Lemma loop_body_well_formed sg m0 s c :
  well_formed sg m0 s -> well_formed_control sg m0 (loop_body sg s c).
Proof.
  destruct s as [pn pv nf vf ln md m].
  unfold well_formed, in_bounds.
  cbn [param_name param_value name_fill value_fill line mode ret].
  intros ((Ln & Lv & B) & Hm & A).
  destruct md; unfold loop_body, quoted_value_case; cbn [mode];
    split_tests_eqn c; norm_state; split_ifs_eqn;
    unfold well_formed_control, well_formed, in_bounds;
    cbn [param_name param_value name_fill value_fill line mode ret];
    well_formed_solver.
Qed.

Lemma while_get_well_formed sg m0 input : forall s,
  well_formed sg m0 s -> well_formed_control sg m0 (while_get sg s input).
Proof.
  induction input as [|c input IH]; intros s H; cbn [while_get].
  - exact H.
  - pose proof (loop_body_well_formed sg m0 s c H) as Hc.
    destruct (loop_body sg s c); cbn [well_formed_control] in Hc; auto.
Qed.

(** X10. After a call that succeeds, every entry the caller's map did not
    already have is well formed: its key is a letter followed by letters,
    digits and underscores, at most [CONF_PARAM_NAME_MAX_LEN - 1 = 29]
    characters in all, and its value has at most
    [CONF_PARAM_VALUE_MAX_LEN - 1 = 254] characters. *)
Theorem parsed_entries_are_well_formed :
  forall sg input m0 m k v,
    parse_config sg (Some input) (Some m0) = (0, Some m) ->
    m !! k = Some v -> m0 !! k = None ->
    name_ok sg k = true /\ value_ok v = true.
Proof.
  intros sg input m0 m k v H Hk H0.
  apply parse_config_success in H as (s & Hw & <-).
  assert (Hinit : well_formed sg m0 (initial_locals m0)).
  { unfold well_formed, in_bounds, initial_locals.
    cbn [param_name param_value mode ret]. rewrite !length_replicate.
    repeat split. intros k' v' H'. auto. }
  pose proof (while_get_well_formed sg m0 input _ Hinit) as Hwf.
  assert (Hok : parsed_entries_ok sg m0 (ret s)).
  { destruct Hw as [Hw|Hw]; rewrite Hw in Hwf; cbn in Hwf; [apply Hwf | exact Hwf]. }
  destruct (Hok k v Hk) as [Hin|Hnew]; [congruence | exact Hnew].
Qed.

(** X10 at the entry a quoted value adds to a map that binds [a]. *)
Lemma parsed_entries_are_well_formed_witness :
  name_ok true "b_2" = true /\ value_ok "two words" = true.
Proof.
  apply (parsed_entries_are_well_formed true
           (chars "a=0" ++ LF :: chars "b_2 = 'two words'" ++ [LF])
           {["a" := "1"%string]}
           (<["b_2" := "two words"%string]> {["a" := "1"%string]})
           "b_2" "two words"); vm_compute; reflexivity.
Defined.

(** ** The line counter *)

Lemma LF_facts sg c :
  Ascii.eqb c LF = true ->
  (char_to_int sg c =? EOF) = false /\ isspace (char_to_int sg c) = true
  /\ isalpha (char_to_int sg c) = false /\ Ascii.eqb c HASH = false
  /\ Ascii.eqb c EQUALS = false /\ Ascii.eqb c SQUOTE = false
  /\ Ascii.eqb c DQUOTE = false.
Proof.
  intros H. apply Ascii.eqb_eq in H. subst c. destruct sg; repeat split.
Qed.

(** Every iteration counts the newline it reads, and nothing else. *)
Lemma loop_body_line sg s c :
  line (final_locals (loop_body sg s c)) = lines_after (line s) [c].
Proof.
  destruct s as [pn pv nf vf ln md m]. cbn [lines_after line].
  unfold loop_body, quoted_value_case. cbn [mode].
  destruct (Ascii.eqb c LF) eqn:Hl.
  - destruct (LF_facts sg c Hl) as (H1 & H2 & H3 & H4 & H5 & H6 & H7).
    rewrite H1, ?H2, ?H3, ?H4, ?H5, ?H6, ?H7.
    destruct md; cbn [negb orb]; norm_state; split_ifs; reflexivity.
  - destruct md; split_tests c; norm_state; split_ifs; reflexivity.
Qed.

Lemma while_get_line sg input : forall s,
  line (final_locals (while_get sg s input)) = lines_after (line s) (consumed sg s input).
Proof.
  induction input as [|c input IH]; intros s.
  - reflexivity.
  - cbn [while_get consumed].
    pose proof (loop_body_line sg s c) as Hc.
    destruct (loop_body sg s c) as [s1|s1|code s1]; cbn [final_locals] in *.
    + rewrite IH, Hc. reflexivity.
    + exact Hc.
    + exact Hc.
Qed.

Lemma int_wrap_add_l a b : int_wrap (int_wrap a + b) = int_wrap (a + b).
Proof.
  unfold int_wrap.
  replace ((a + 2 ^ 31) mod 2 ^ 32 - 2 ^ 31 + b + 2 ^ 31)
    with ((a + 2 ^ 31) mod 2 ^ 32 + b) by lia.
  rewrite Z.add_mod_idemp_l by lia.
  replace (a + 2 ^ 31 + b) with (a + b + 2 ^ 31) by lia. reflexivity.
Qed.

Lemma lines_after_count l : forall ln,
  int_wrap (lines_after ln l) = int_wrap (ln + count_LF l).
Proof.
  induction l as [|c l IH]; intros ln; cbn [lines_after count_LF].
  - rewrite Z.add_0_r. reflexivity.
  - rewrite IH. destruct (Ascii.eqb c LF).
    + rewrite int_wrap_add_l. f_equal. lia.
    + f_equal.
Qed.

Lemma lines_after_int l : forall ln, int_wrap ln = ln -> int_wrap (lines_after ln l) = lines_after ln l.
Proof.
  induction l as [|c l IH]; intros ln H; cbn [lines_after]; [exact H|].
  apply IH. destruct (Ascii.eqb c LF); [|exact H].
  rewrite <- (Z.add_0_r (int_wrap (ln + 1))) at 1. rewrite int_wrap_add_l, Z.add_0_r.
  reflexivity.
Qed.

(** X4. When the loop stops, for whatever reason, the [int] counter [line]
    holds 1 plus the number of newlines among the characters read, the one
    the loop stopped at included (wrapped around past [INT_MAX]): every
    mode counts a newline, none counts anything else. This is the line
    number the diagnostics print. *)
Theorem line_counts_newlines_read :
  forall sg input m,
    line (final_locals (while_get sg (initial_locals m) input))
    = int_wrap (1 + count_LF (consumed sg (initial_locals m) input)).
Proof.
  intros sg input m. rewrite while_get_line, <- lines_after_count.
  symmetry. apply lines_after_int. reflexivity.
Qed.

(** ** Composition *)

(** X5. Input that leaves the scanner between parameters (SkipSpace)
    can be cut off: parsing [input1 ++ input2] into the caller's map is
    parsing [input2] into the map that [input1] gives. Nothing but the map
    is carried from one parameter to the next. *)
Theorem parse_config_app :
  forall sg input1 input2 m0 m1,
    mode_after sg m0 input1 = Some parse_skip_space ->
    parse_config sg (Some input1) (Some m0) = (0, Some m1) ->
    parse_config sg (Some (input1 ++ input2)) (Some m0)
    = parse_config sg (Some input2) (Some m1).
Proof.
  intros sg input1 input2 m0 m1 Hmode H1.
  unfold mode_after in Hmode.
  destruct (while_get sg (initial_locals m0) input1) as [s| |] eqn:Hw; try discriminate.
  inversion Hmode as [Hm]. clear Hmode.
  unfold parse_config in H1. rewrite Hw in H1. inversion H1 as [Hr]. clear H1. subst m1.
  rewrite !parse_config_outcome, while_get_app, Hw.
  rewrite (same_pending_outcome (while_get sg s input2)
             (while_get sg (initial_locals (ret s)) input2)); [reflexivity|].
  apply while_get_same_pending.
  pose proof (while_get_in_bounds sg input1 m0 s Hw) as Hb.
  unfold same_pending. rewrite Hm. split; [exact Hb|].
  unfold in_bounds, initial_locals. cbn [param_name param_value mode ret].
  rewrite !length_replicate. repeat split.
Qed.

(** X5 at a first line [a = 'x' # one] and two more lines. *)
Lemma parse_config_app_witness :
  parse_config true
    (Some ((chars "a = 'x' # one" ++ [LF]) ++ (chars "b=2" ++ LF :: chars "a=3" ++ [LF])))
    (Some ∅)
  = parse_config true (Some (chars "b=2" ++ LF :: chars "a=3" ++ [LF]))
      (Some {["a" := "x"%string]}).
Proof.
  apply (parse_config_app true (chars "a = 'x' # one" ++ [LF])
           (chars "b=2" ++ LF :: chars "a=3" ++ [LF]) ∅ {["a" := "x"%string]});
    vm_compute; reflexivity.
Defined.

(** ** Whitespace and comments *)

Lemma buffers_fit (k v : list ascii) :
  (length k <= CONF_PARAM_NAME_MAX_LEN - 1)%nat ->
  (length v <= CONF_PARAM_VALUE_MAX_LEN - 1)%nat ->
  (length k < length (replicate CONF_PARAM_NAME_MAX_LEN NUL))%nat
  /\ (length v < length (replicate CONF_PARAM_VALUE_MAX_LEN NUL))%nat.
Proof.
  rewrite !length_replicate. unfold CONF_PARAM_NAME_MAX_LEN, CONF_PARAM_VALUE_MAX_LEN. lia.
Qed.

Lemma space_char_more_facts sg c :
  space_char sg c = true ->
  Ascii.eqb c HASH = false /\ isalpha (char_to_int sg c) = false
  /\ Ascii.eqb c EQUALS = false /\ junk_char sg c = true.
Proof.
  destruct sg; all_chars c; vm_compute; intros H; try discriminate H; repeat split.
Qed.

Lemma blank_char_facts sg c :
  blank_char sg c = true ->
  is_EOF sg c = false /\ isspace (char_to_int sg c) = true
  /\ Ascii.eqb c LF = false /\ Ascii.eqb c HASH = false.
Proof.
  destruct sg; all_chars c; vm_compute; intros H; try discriminate H; repeat split.
Qed.

Lemma step_space_skip_space sg c pn pv nf vf ln m :
  space_char sg c = true ->
  loop_body sg (mkLocals pn pv nf vf ln parse_skip_space m) c
  = Next (mkLocals pn pv nf vf (lines_after ln [c]) parse_skip_space m).
Proof.
  intros H. destruct (space_char_facts sg c H) as (He & Hsp).
  destruct (space_char_more_facts sg c H) as (Hh & Ha & _).
  unfold loop_body. fold (is_EOF sg c). rewrite He. cbn [mode lines_after].
  rewrite Hh, Ha, Hsp. destruct (Ascii.eqb c LF); reflexivity.
Qed.

Lemma skip_space_skip_space sg ws : forall pn pv nf vf ln m,
  forallb (space_char sg) ws = true ->
  while_get sg (mkLocals pn pv nf vf ln parse_skip_space m) ws
  = Next (mkLocals pn pv nf vf (lines_after ln ws) parse_skip_space m).
Proof.
  induction ws as [|c ws IH]; intros pn pv nf vf ln m Hall.
  - reflexivity.
  - cbn [forallb] in Hall. apply andb_true_iff in Hall as [Hc Hall].
    cbn [while_get]. rewrite step_space_skip_space by assumption.
    rewrite IH by assumption. reflexivity.
Qed.

Lemma skip_comment_chars sg l : forall pn pv nf vf ln m,
  forallb (comment_char sg) l = true ->
  while_get sg (mkLocals pn pv nf vf ln parse_skip_comment_line m) l
  = Next (mkLocals pn pv nf vf ln parse_skip_comment_line m).
Proof.
  induction l as [|c l IH]; intros pn pv nf vf ln m Hall.
  - reflexivity.
  - cbn [forallb] in Hall. apply andb_true_iff in Hall as [Hc Hall].
    apply andb_true_iff in Hc as [Hl He].
    apply negb_true_iff in Hl. apply negb_true_iff in He.
    cbn [while_get]. unfold loop_body. fold (is_EOF sg c). rewrite He. cbn [mode].
    rewrite Hl. apply IH. assumption.
Qed.

Lemma step_hash_skip_space sg pn pv nf vf ln m :
  loop_body sg (mkLocals pn pv nf vf ln parse_skip_space m) HASH
  = Next (mkLocals pn pv nf vf ln parse_skip_comment_line m).
Proof. destruct sg; reflexivity. Qed.

Lemma step_LF_comment sg pn pv nf vf ln m :
  loop_body sg (mkLocals pn pv nf vf ln parse_skip_comment_line m) LF
  = Next (mkLocals pn pv nf vf (int_wrap (ln + 1)) parse_skip_space m).
Proof. destruct sg; reflexivity. Qed.

(** X6. Between parameters, whitespace (blank lines included) and a
    comment from [#] to the end of its line are skipped: the call gives the
    result it gives with them left out. *)
Theorem blank_and_comment_lines_are_ignored :
  forall sg pre ws comment rest m0,
    mode_after sg m0 pre = Some parse_skip_space ->
    forallb (space_char sg) ws = true ->
    forallb (comment_char sg) comment = true ->
    parse_config sg (Some (pre ++ ws ++ rest)) (Some m0)
    = parse_config sg (Some (pre ++ rest)) (Some m0)
    /\ parse_config sg (Some (pre ++ HASH :: comment ++ LF :: rest)) (Some m0)
       = parse_config sg (Some (pre ++ rest)) (Some m0).
Proof.
  intros sg pre ws comment rest m0 Hmode Hws Hcomment.
  apply mode_after_Some in Hmode as (pn & pv & nf & vf & ln & m & Hpre).
  rewrite !parse_config_outcome, !while_get_app, Hpre. split.
  - rewrite while_get_app, skip_space_skip_space by assumption.
    change (mkLocals pn pv nf vf (lines_after ln ws) parse_skip_space m)
      with (set_line (lines_after ln ws) (mkLocals pn pv nf vf ln parse_skip_space m)).
    rewrite outcome_line_irrelevant. reflexivity.
  - cbn [while_get]. rewrite step_hash_skip_space.
    rewrite while_get_app, skip_comment_chars by assumption.
    cbn [while_get]. rewrite step_LF_comment.
    change (mkLocals pn pv nf vf (int_wrap (ln + 1)) parse_skip_space m)
      with (set_line (int_wrap (ln + 1)) (mkLocals pn pv nf vf ln parse_skip_space m)).
    rewrite outcome_line_irrelevant. reflexivity.
Qed.

(** X6 at blank lines and a comment line between [a=1] and [b=2]. *)
Lemma blank_and_comment_lines_are_ignored_witness :
  parse_config true
    (Some ((chars "a=1" ++ [LF]) ++ (LF :: chars "  " ++ [LF]) ++ chars "b=2" ++ [LF])) (Some ∅)
  = parse_config true (Some ((chars "a=1" ++ [LF]) ++ chars "b=2" ++ [LF])) (Some ∅)
  /\ parse_config true
       (Some ((chars "a=1" ++ [LF]) ++ HASH :: chars " c=3 'x" ++ LF :: chars "b=2" ++ [LF]))
       (Some ∅)
     = parse_config true (Some ((chars "a=1" ++ [LF]) ++ chars "b=2" ++ [LF])) (Some ∅).
Proof.
  apply (blank_and_comment_lines_are_ignored true (chars "a=1" ++ [LF])
           (LF :: chars "  " ++ [LF]) (chars " c=3 'x") (chars "b=2" ++ [LF]) ∅);
    vm_compute; reflexivity.
Defined.

(** ** The end of an unquoted value *)

Lemma step_value_hash sg pn pv nf vf ln m :
  loop_body sg (mkLocals pn pv nf vf ln parse_value m) HASH
  = Next (mkLocals pn (<[vf := NUL]> pv) nf (vf + 1) ln parse_skip_comment_line
            (umap_insert (c_str pn) (c_str (<[vf := NUL]> pv)) m)).
Proof. destruct sg; reflexivity. Qed.

Lemma step_value_blank sg c pn pv nf vf ln m :
  blank_char sg c = true ->
  loop_body sg (mkLocals pn pv nf vf ln parse_value m) c
  = Next (mkLocals pn (<[vf := NUL]> pv) nf (vf + 1) ln parse_line_end
            (umap_insert (c_str pn) (c_str (<[vf := NUL]> pv)) m)).
Proof.
  intros H. destruct (blank_char_facts sg c H) as (He & Hsp & Hl & Hh).
  unfold loop_body. fold (is_EOF sg c). rewrite He. cbn [mode].
  rewrite Hsp, Hh, Hl. reflexivity.
Qed.

Lemma skip_blank_line_end sg l : forall pn pv nf vf ln m,
  forallb (blank_char sg) l = true ->
  while_get sg (mkLocals pn pv nf vf ln parse_line_end m) l
  = Next (mkLocals pn pv nf vf ln parse_line_end m).
Proof.
  induction l as [|c l IH]; intros pn pv nf vf ln m Hall.
  - reflexivity.
  - cbn [forallb] in Hall. apply andb_true_iff in Hall as [Hc Hall].
    destruct (blank_char_facts sg c Hc) as (He & Hsp & Hl & Hh).
    cbn [while_get]. unfold loop_body. fold (is_EOF sg c). rewrite He. cbn [mode].
    rewrite Hsp, Hl. apply IH. assumption.
Qed.

Lemma step_hash_line_end sg pn pv nf vf ln m :
  loop_body sg (mkLocals pn pv nf vf ln parse_line_end m) HASH
  = Next (mkLocals pn pv nf vf ln parse_skip_comment_line m).
Proof. destruct sg; reflexivity. Qed.

Lemma scan_value_body sg v pn pv nf vf ln m :
  v <> [] -> forallb (plain_char sg) v = true ->
  (length v <= CONF_PARAM_VALUE_MAX_LEN - 1)%nat ->
  while_get sg (mkLocals pn pv nf vf ln parse_skip_space_after_equal m) v
  = Next (mkLocals pn (list_inserts 0 v pv) nf (length v) ln parse_value m).
Proof.
  intros Hne Hv Hlen. destruct v as [|c0 v]; [congruence|].
  cbn [forallb] in Hv. apply andb_true_iff in Hv as [Hc0 Hv].
  destruct (plain_char_facts sg c0 Hc0) as (H1 & H2 & H3 & _).
  destruct (plain_value_facts sg v Hv) as (Hv1 & _).
  cbn [length] in Hlen. cbn [while_get]. rewrite step_value_first by assumption.
  rewrite scan_value_chars by (assumption || lia).
  rewrite list_inserts_shift. reflexivity.
Qed.

Lemma comment_char_no_LF sg l :
  forallb (comment_char sg) l = true ->
  forallb (fun c => negb (Ascii.eqb c LF)) l = true.
Proof.
  induction l as [|c l IH]; [reflexivity|]. cbn [forallb].
  rewrite !andb_true_iff. unfold comment_char at 1. rewrite andb_true_iff. tauto.
Qed.

(** X9. An unquoted value is committed by the [#] or the blank right
    after it, newline or not: the lines [k=v#comment], [k=v] followed by
    blanks, and [k=v] followed by blanks and a comment all bind [k] to [v],
    also when the stream ends on that line. *)
Theorem unquoted_value_ends_at_blank_or_hash :
  forall sg k v blanks comment,
    valid_name sg k = true ->
    (length k <= CONF_PARAM_NAME_MAX_LEN - 1)%nat ->
    v <> [] -> forallb (plain_char sg) v = true ->
    (length v <= CONF_PARAM_VALUE_MAX_LEN - 1)%nat ->
    blanks <> [] -> forallb (blank_char sg) blanks = true ->
    forallb (fun c => negb (Ascii.eqb c LF)) comment = true ->
    parse_config sg (Some (k ++ EQUALS :: v ++ HASH :: comment)) (Some ∅) = success_with k v
    /\ parse_config sg (Some (k ++ EQUALS :: v ++ blanks)) (Some ∅) = success_with k v
    /\ parse_config sg (Some (k ++ EQUALS :: v ++ blanks ++ HASH :: comment)) (Some ∅)
       = success_with k v.
Proof.
  intros sg k v blanks comment Hk Hkl Hne Hv Hvl Hbne Hb Hc.
  destruct (plain_value_facts sg v Hv) as (_ & Hnul & _).
  destruct (buffers_fit k v Hkl Hvl) as [Hb1 Hb2].
  destruct blanks as [|b blanks]; [congruence|].
  cbn [forallb] in Hb. apply andb_true_iff in Hb as [Hb0 Hb].
  assert (Hpre : forall tail,
    while_get sg (initial_locals ∅) (k ++ EQUALS :: v ++ tail)
    = while_get sg
        (mkLocals (<[length k := NUL]> (list_inserts 0 k (replicate CONF_PARAM_NAME_MAX_LEN NUL)))
           (list_inserts 0 v (replicate CONF_PARAM_VALUE_MAX_LEN NUL))
           (length k + 1) (length v) 1 parse_value ∅) tail).
  { intros tail. unfold initial_locals.
    rewrite (cons_as_app k EQUALS), while_get_app, scan_name_equals by assumption.
    rewrite while_get_app, scan_value_body by assumption. reflexivity. }
  unfold success_with. rewrite !parse_config_outcome, !Hpre.
  cbn [app while_get]. rewrite step_value_hash, !step_value_blank by assumption.
  rewrite !c_str_written by assumption.
  rewrite !c_str_no_NUL by eauto using valid_name_no_NUL.
  rewrite umap_insert_empty.
  repeat split.
  - rewrite skip_comment by assumption. reflexivity.
  - rewrite skip_blank_line_end by assumption. reflexivity.
  - rewrite while_get_app, skip_blank_line_end by assumption.
    cbn [while_get]. rewrite step_hash_line_end, skip_comment by assumption. reflexivity.
Qed.

(** X9 at the line [password=helloworld] of the usage example. *)
Lemma unquoted_value_ends_at_blank_or_hash_witness :
  parse_config true (Some (chars "password" ++ EQUALS :: chars "helloworld"
                           ++ HASH :: chars " test")) (Some ∅)
  = success_with (chars "password") (chars "helloworld")
  /\ parse_config true (Some (chars "password" ++ EQUALS :: chars "helloworld"
                              ++ chars "  ")) (Some ∅)
     = success_with (chars "password") (chars "helloworld")
  /\ parse_config true (Some (chars "password" ++ EQUALS :: chars "helloworld"
                              ++ chars "  " ++ HASH :: chars " test")) (Some ∅)
     = success_with (chars "password") (chars "helloworld").
Proof.
  apply (unquoted_value_ends_at_blank_or_hash true (chars "password") (chars "helloworld")
           (chars "  ") (chars " test"));
    first [reflexivity | discriminate | (vm_compute; lia)].
Defined.

(** ** Whitespace around the equals sign *)

Lemma space_is_junk sg ws :
  forallb (space_char sg) ws = true -> forallb (junk_char sg) ws = true.
Proof.
  induction ws as [|c ws IH]; [reflexivity|]. cbn [forallb].
  rewrite !andb_true_iff. intros [Hc Hws].
  destruct (space_char_more_facts sg c Hc) as (_ & _ & _ & Hj). auto.
Qed.

Lemma scan_name_spaces_equals sg k ws pn pv nf vf ln m :
  valid_name sg k = true ->
  (length k <= CONF_PARAM_NAME_MAX_LEN - 1)%nat ->
  forallb (space_char sg) ws = true ->
  while_get sg (mkLocals pn pv nf vf ln parse_skip_space m) (k ++ ws ++ [EQUALS])
  = Next (mkLocals (<[length k := NUL]> (list_inserts 0 k pn)) pv (length k + 1) vf
            (lines_after ln ws) parse_skip_space_after_equal m).
Proof.
  intros Hk Hkl Hws. rewrite while_get_app, scan_name by assumption.
  destruct ws as [|w ws].
  - cbn [app while_get lines_after]. rewrite step_name_equals. reflexivity.
  - cbn [forallb] in Hws. apply andb_true_iff in Hws as [Hw Hws].
    cbn [app while_get]. rewrite step_name_space by assumption.
    rewrite while_get_app, skip_junk_before_equal by (apply space_is_junk; assumption).
    cbn [while_get]. rewrite step_equals_before_equal. reflexivity.
Qed.

(** X11. Whitespace between the name and [=] and between [=] and the
    value is skipped, newlines included: the name, the [=] and the value
    may even stand on different lines. *)
Theorem whitespace_around_equals_is_ignored :
  forall sg k ws1 ws2 v,
    valid_name sg k = true ->
    (length k <= CONF_PARAM_NAME_MAX_LEN - 1)%nat ->
    forallb (space_char sg) ws1 = true ->
    forallb (space_char sg) ws2 = true ->
    v <> [] -> forallb (plain_char sg) v = true ->
    (length v <= CONF_PARAM_VALUE_MAX_LEN - 1)%nat ->
    parse_config sg (Some (k ++ ws1 ++ EQUALS :: ws2 ++ v ++ [LF])) (Some ∅)
    = success_with k v.
Proof.
  intros sg k ws1 ws2 v Hk Hkl Hws1 Hws2 Hne Hv Hvl.
  destruct (plain_value_facts sg v Hv) as (_ & Hnul & _).
  destruct (buffers_fit k v Hkl Hvl) as [Hb1 Hb2].
  unfold success_with, parse_config, initial_locals.
  replace (k ++ ws1 ++ EQUALS :: ws2 ++ v ++ [LF])
    with ((k ++ ws1 ++ [EQUALS]) ++ ws2 ++ v ++ [LF])
    by (rewrite <- !app_assoc; reflexivity).
  rewrite while_get_app, scan_name_spaces_equals by assumption.
  rewrite while_get_app, skip_space_after_equal by assumption.
  rewrite scan_value_LF by assumption.
  rewrite !c_str_written by assumption.
  rewrite !c_str_no_NUL by eauto using valid_name_no_NUL.
  rewrite umap_insert_empty. reflexivity.
Qed.

(** X11 at the line [user      =   ] with the value on the next line. *)
Lemma whitespace_around_equals_is_ignored_witness :
  parse_config true
    (Some (chars "user" ++ chars "      " ++ EQUALS :: (chars "   " ++ [LF]) ++ chars "dba_admin"
           ++ [LF])) (Some ∅)
  = success_with (chars "user") (chars "dba_admin").
Proof.
  apply (whitespace_around_equals_is_ignored true (chars "user") (chars "      ")
           (chars "   " ++ [LF]) (chars "dba_admin"));
    first [reflexivity | discriminate | (vm_compute; lia)].
Defined.

(** ** Quoted values *)

Lemma step_quoted_overflow sg dq c pn pv nf vf ln m :
  quoted_char sg (quote_char dq) c = true ->
  (CONF_PARAM_VALUE_MAX_LEN - 1 < vf + 1)%nat ->
  outcome (loop_body sg (mkLocals pn pv nf vf ln (quote_mode dq) m) c)
  = (CONFERR_WRONGVALUE, ∅).
Proof.
  intros H Hn. apply andb_true_iff in H as [Hq He]. apply negb_true_iff in He.
  unfold loop_body. fold (is_EOF sg c). rewrite He.
  apply Nat.ltb_lt in Hn.
  destruct dq; cbn [mode quote_mode]; unfold quoted_value_case;
    cbn [quote_char] in Hq; rewrite Hq; destruct (Ascii.eqb c LF);
    norm_state; rewrite Hn; reflexivity.
Qed.

Lemma scan_quoted_overflow sg dq v rest pn pv nf vf ln m :
  forallb (quoted_char sg (quote_char dq)) v = true ->
  (CONF_PARAM_VALUE_MAX_LEN <= length v)%nat ->
  outcome (while_get sg (mkLocals pn pv nf vf ln parse_skip_space_after_equal m)
             (quote_char dq :: v ++ rest))
  = (CONFERR_WRONGVALUE, ∅).
Proof.
  intros Hv Hlen. unfold CONF_PARAM_VALUE_MAX_LEN in Hlen.
  rewrite <- (take_drop 254 v) in Hv |- *.
  rewrite forallb_app in Hv. apply andb_true_iff in Hv as [Hv1 Hv2].
  assert (Hl1 : length (take 254 v) = 254%nat) by (rewrite length_take; lia).
  destruct (drop 254 v) as [|c v2] eqn:Hd.
  { apply (f_equal length) in Hd. rewrite length_drop in Hd. cbn in Hd. lia. }
  cbn [forallb] in Hv2. apply andb_true_iff in Hv2 as [Hc Hv2].
  cbn [while_get]. rewrite step_quote_open.
  rewrite <- app_assoc, while_get_app.
  rewrite scan_quoted_chars by (assumption || (rewrite Hl1; cbn; lia)).
  cbn [app while_get].
  pose proof (step_quoted_overflow sg dq c pn (list_inserts 0 (take 254 v) pv) nf
                (0 + length (take 254 v)) (lines_after ln (take 254 v)) m Hc) as Hs.
  destruct (loop_body sg _ c) as [s|s|code s] eqn:Hb;
    cbn [outcome] in Hs |- *;
    (assert (HH : (CONF_PARAM_VALUE_MAX_LEN - 1 < 0 + length (take 254 v) + 1)%nat)
       by (rewrite Hl1; cbn; lia));
    specialize (Hs HH); try discriminate Hs; exact Hs.
Qed.

(** X7. Between its delimiters a quoted value may hold anything but the
    delimiter and a byte that compares equal to [EOF]: whitespace, [#],
    newlines, the other quote. Up to [CONF_PARAM_VALUE_MAX_LEN - 1 = 254]
    characters it is stored as the C string it makes in the buffer, that is
    cut at its first NUL; from 255 characters on the call fails with
    WRONG_VALUE. *)
Theorem quoted_value_stored_as_C_string :
  forall sg dq k v,
    valid_name sg k = true ->
    (length k <= CONF_PARAM_NAME_MAX_LEN - 1)%nat ->
    forallb (quoted_char sg (quote_char dq)) v = true ->
    parse_config sg (Some (k ++ EQUALS :: quote_char dq :: v ++ [quote_char dq])) (Some ∅)
    = if (CONF_PARAM_VALUE_MAX_LEN <=? length v)%nat
      then (CONFERR_WRONGVALUE, Some ∅)
      else (0, Some {[string_of_list_ascii k := c_str v]}).
Proof.
  intros sg dq k v Hk Hkl Hv.
  destruct (CONF_PARAM_VALUE_MAX_LEN <=? length v)%nat eqn:Hvl.
  - apply Nat.leb_le in Hvl. rewrite parse_config_outcome. unfold initial_locals.
    rewrite cons_as_app, while_get_app, scan_name_equals by assumption.
    rewrite scan_quoted_overflow by assumption. reflexivity.
  - apply Nat.leb_gt in Hvl.
    assert (Hvl' : (length v <= CONF_PARAM_VALUE_MAX_LEN - 1)%nat) by lia.
    destruct (buffers_fit k v Hkl Hvl') as [Hb1 Hb2].
    unfold parse_config, initial_locals.
    rewrite cons_as_app, while_get_app, scan_name_equals by assumption.
    rewrite scan_quoted_value by assumption.
    rewrite !c_str_written by assumption.
    rewrite (c_str_no_NUL k) by eauto using valid_name_no_NUL.
    rewrite umap_insert_empty. reflexivity.
Qed.

(** X7 at a double-quoted value with a quote, a [#], a newline and a NUL. *)
Lemma quoted_value_stored_as_C_string_witness :
  parse_config true
    (Some (chars "motd" ++ EQUALS :: quote_char true
           :: (chars "it's # 1" ++ LF :: chars "ok" ++ NUL :: chars "cut")
           ++ [quote_char true])) (Some ∅)
  = (0, Some {["motd" := string_of_list_ascii (chars "it's # 1" ++ LF :: chars "ok")]}).
Proof.
  apply (quoted_value_stored_as_C_string true true (chars "motd")
           (chars "it's # 1" ++ LF :: chars "ok" ++ NUL :: chars "cut"));
    vm_compute; first [reflexivity | lia].
Defined.

(** ** Names *)

(** X8. In a name, a character that is not a letter, a digit, an
    underscore, whitespace or [=] (and does not compare equal to [EOF])
    fails the call with WRONG_PARAM and clears the map, wherever in the
    file the name stands. *)
Theorem bad_character_in_name :
  forall sg pre k c rest m0,
    mode_after sg m0 pre = Some parse_skip_space ->
    valid_name sg k = true ->
    (length k <= CONF_PARAM_NAME_MAX_LEN - 1)%nat ->
    name_char sg c = false ->
    isspace (char_to_int sg c) = false ->
    Ascii.eqb c EQUALS = false ->
    is_EOF sg c = false ->
    parse_config sg (Some (pre ++ k ++ c :: rest)) (Some m0) = (CONFERR_WRONGPARAM, Some ∅).
Proof.
  intros sg pre k c rest m0 Hmode Hk Hkl Hc Hsp Hq He.
  apply mode_after_Some in Hmode as (pn & pv & nf & vf & ln & m & Hpre).
  unfold parse_config. rewrite while_get_app, Hpre, while_get_app, scan_name by assumption.
  cbn [while_get]. unfold loop_body. fold (is_EOF sg c). rewrite He. cbn [mode].
  rewrite Hsp, Hq. fold (name_char sg c). rewrite Hc. reflexivity.
Qed.

(** X8 at the line [bad-name = x] after a good line. *)
Lemma bad_character_in_name_witness :
  parse_config true (Some (chars "a=1" ++ [LF] ++ chars "bad" ++ "-"%char :: chars "name = x"))
    (Some ∅)
  = (CONFERR_WRONGPARAM, Some ∅).
Proof.
  apply (bad_character_in_name true (chars "a=1" ++ [LF]) (chars "bad") "-"%char
           (chars "name = x") ∅); vm_compute; first [reflexivity | lia].
Defined.

(** ** The end of the stream *)

Lemma scan_value_prefix sg v pn pv nf vf ln m :
  forallb (plain_char sg) v = true ->
  (length v <= CONF_PARAM_VALUE_MAX_LEN - 1)%nat ->
  exists s, while_get sg (mkLocals pn pv nf vf ln parse_skip_space_after_equal m) v = Next s
            /\ ret s = m.
Proof.
  intros Hv Hlen. destruct v as [|c0 v].
  - eexists. split; reflexivity.
  - cbn [forallb] in Hv. apply andb_true_iff in Hv as [Hc0 Hv].
    destruct (plain_char_facts sg c0 Hc0) as (H1 & H2 & H3 & _).
    destruct (plain_value_facts sg v Hv) as (Hv1 & _).
    cbn [length] in Hlen. cbn [while_get]. rewrite step_value_first by assumption.
    rewrite scan_value_chars by (assumption || lia). eexists. split; reflexivity.
Qed.

(** X13. A value the stream ends in is lost without an error: when the
    input stops right after an unquoted value [v] (no newline, blank or [#]
    behind it) or inside a quoted value [w], the call returns 0 and the
    pair is not in the map. *)
Theorem pending_value_dropped_at_end_of_stream :
  forall sg dq k v w,
    valid_name sg k = true ->
    (length k <= CONF_PARAM_NAME_MAX_LEN - 1)%nat ->
    forallb (plain_char sg) v = true ->
    (length v <= CONF_PARAM_VALUE_MAX_LEN - 1)%nat ->
    forallb (quoted_char sg (quote_char dq)) w = true ->
    (length w <= CONF_PARAM_VALUE_MAX_LEN - 1)%nat ->
    parse_config sg (Some (k ++ EQUALS :: v)) (Some ∅) = (0, Some ∅)
    /\ parse_config sg (Some (k ++ EQUALS :: quote_char dq :: w)) (Some ∅) = (0, Some ∅).
Proof.
  intros sg dq k v w Hk Hkl Hv Hvl Hw Hwl. split.
  - unfold parse_config, initial_locals.
    rewrite cons_as_app, while_get_app, scan_name_equals by assumption.
    edestruct (scan_value_prefix sg v) as (s & -> & ->); eauto.
  - unfold parse_config, initial_locals.
    rewrite cons_as_app, while_get_app, scan_name_equals by assumption.
    cbn [while_get]. rewrite step_quote_open.
    rewrite scan_quoted_chars by (assumption || lia). reflexivity.
Qed.

(** X13 at the last line of the usage example without its newline, and at
    an open quote. *)
Lemma pending_value_dropped_at_end_of_stream_witness :
  parse_config true (Some (chars "database" ++ EQUALS :: chars "testdb123")) (Some ∅)
  = (0, Some ∅)
  /\ parse_config true
       (Some (chars "database" ++ EQUALS :: quote_char false :: chars "test db")) (Some ∅)
     = (0, Some ∅).
Proof.
  apply (pending_value_dropped_at_end_of_stream true false (chars "database")
           (chars "testdb123") (chars "test db")); vm_compute; first [reflexivity | lia].
Defined.

(** X14. Where [char] is unsigned no character compares equal to [EOF]:
    the loop never takes the [break] of the [c == EOF] block, it runs to the
    end of the stream or to a parse error. *)
Theorem unsigned_char_never_breaks :
  forall input s,
    match while_get false s input with
    | Break _ => False
    | _ => True
    end.
Proof.
  induction input as [|c input IH]; intros s; cbn [while_get]; [exact I|].
  destruct (loop_body false s c) as [s1|s1|code s1] eqn:Hb; [apply IH| |exact I].
  unfold loop_body in Hb. fold (is_EOF false c) in Hb.
  destruct (is_EOF false c) eqn:He.
  - apply is_EOF_spec in He as [He _]. discriminate He.
  - destruct s as [pn pv nf vf ln md m]. revert Hb. unfold quoted_value_case.
    cbn [mode]. destruct md; split_tests c; norm_state; split_ifs; discriminate.
Qed.
